(** * UE-DevUtilities: memory usage tracker and gameplay event logger

    A shallow embedding of [UMemoryUsageTracker] (MemoryUsageTracker.cpp)
    and [UGameplayEventLogger] (GameplayEventLogger.cpp), with the
    properties of the specification stated and proved over it.

    Conventions of the embedding:
    - a [UObject*] is an [option addr]: [None] is [nullptr], [Some p] is the
      object stored at address [p] of the object heap;
    - [int32] and [int64] values are integers of [Z], every arithmetic
      operation of the source being followed by the matching two's
      complement wrap ([wrap32], [wrap64]);
    - [float] values are IEEE-754 binary32 numbers ([spec_float] with a
      24 bit significand);
    - [UE_LOG] output is returned by each operation as a list of lines;
    - what an operation reads from the engine (the clock of the world, the
      wall clock, the outcome of a file write) is an argument of its model;
    - operations run one at a time: the [FScopeLock] sections of the event
      logger are atomic steps and the mutex itself is not represented;
    - dereferencing a pointer to an object that is not in the heap is the
      outcome [InvalidDeref];
    - the recursion of [CountReferencedObjects] is driven by a fuel
      counter bounding the depth of nested calls, and the fuel that always
      suffices is computed from the heap. *)

From Stdlib Require Import ZArith Ascii String List Lia.
From Stdlib Require Import Floats.SpecFloat.
From stdpp Require Import base option list sets gmap fin_sets relations strings.

Local Open Scope Z_scope.

Set Warnings "-clear-no-such-hyp".

(** ** Results of fallible computations *)

Module Res.

Inductive Result (A : Type) : Type :=
| Done (a : A)
| OutOfFuel
| InvalidDeref.

Arguments Done {A} a.
Arguments OutOfFuel {A}.
Arguments InvalidDeref {A}.

Definition bind {A B : Type} (r : Result A) (k : A -> Result B) : Result B :=
  match r with
  | Done a => k a
  | OutOfFuel => OutOfFuel
  | InvalidDeref => InvalidDeref
  end.

End Res.

Export Res.

#[export] Instance Result_bind : MBind Result :=
  fun A B k r => Res.bind r k.
#[export] Instance Result_ret : MRet Result := @Done.

(** ** Machine integers *)

Definition wrap32 (z : Z) : Z := (z + 2 ^ 31) mod 2 ^ 32 - 2 ^ 31.
Definition wrap64 (z : Z) : Z := (z + 2 ^ 63) mod 2 ^ 64 - 2 ^ 63.

Definition in_int32 (z : Z) : Prop := - 2 ^ 31 <= z < 2 ^ 31.
Definition in_int64 (z : Z) : Prop := - 2 ^ 63 <= z < 2 ^ 63.

(** ** The object heap and the reflected properties *)

Abbreviation addr := positive.

(** [UObject*]: null or the address of an object. *)
Abbreviation ptr := (option addr).

(** What [ArrayProp->Inner] is and what the script array holds: object
    references when the inner property casts to [FObjectPropertyBase],
    otherwise [Num] raw elements. *)
Inductive ArrayContents : Type :=
| ObjectElements (Elements : list ptr)
| RawElements (Num : Z).

(** Modelled from the spec: the reflection types of the engine are not in
    the repository. A reflected property of an object together with its
    value in that object, by the class [CastField] finds: an array with the
    element size of its inner property, a string with the allocated size
    of its storage, a name, an object reference with the pointer it holds,
    and any other property with its element size. *)
Inductive FProperty : Type :=
| FArrayProperty (InnerElementSize : Z) (Contents : ArrayContents)
| FStrProperty (AllocatedSize : Z)
| FNameProperty (ElementSize : Z)
| FObjectPropertyBase (ElementSize : Z) (Value : ptr)
| FOtherProperty (ElementSize : Z).

(** Modelled from the spec: an object of the engine, as the trackers see
    it: its name, whether it is pending kill, and its reflected
    properties. *)
Record UObject : Type := mkUObject {
  ObjName : string;
  bPendingKill : bool;
  (** what [TFieldIterator<FProperty>] yields; [None] is a null entry *)
  Properties : list (option FProperty)
}.

Abbreviation Heap := (gmap addr UObject).

(** [Helper.Num()] *)
Definition ArrayNum (c : ArrayContents) : Z :=
  match c with
  | ObjectElements els => Z.of_nat (length els)
  | RawElements n => n
  end.

(** ** CountReferencedObjects *)

Module Walker.

(** The state the loops of [CountReferencedObjects] thread: the running
    [Count] and the [Visited] set, which the callee shares by reference. *)
Definition WalkState : Type := Z * gset addr.

Section Loops.

(** The recursive call, [CountReferencedObjects(RefObject, Visited)]. *)
Variable rec : ptr -> gset addr -> Result WalkState.

(** [if (RefObject && !Visited.Contains(RefObject))
      Count += CountReferencedObjects(RefObject, Visited);] *)
Definition visit_reference (RefObject : ptr) (st : WalkState)
  : Result WalkState :=
  let '(Count, Visited) := st in
  match RefObject with
  | None => Done (Count, Visited)
  | Some r =>
      if decide (r ∈ Visited) then Done (Count, Visited)
      else
        '(n, Visited') ← rec (Some r) Visited;
        Done (wrap32 (Count + n), Visited')
  end.

(** [for (Index = 0; Index < Helper.Num(); ++Index)] over an array whose
    inner property is an object property. *)
Fixpoint scan_elements (Elements : list ptr) (st : WalkState)
  : Result WalkState :=
  match Elements with
  | [] => Done st
  | RefObject :: rest =>
      st' ← visit_reference RefObject st;
      scan_elements rest st'
  end.

(** The body of the property loop for one property. *)
Definition scan_property (Property : option FProperty) (st : WalkState)
  : Result WalkState :=
  match Property with
  | None => Done st
  | Some (FObjectPropertyBase _ RefObject) => visit_reference RefObject st
  | Some (FArrayProperty _ (ObjectElements Elements)) =>
      scan_elements Elements st
  | Some _ => Done st
  end.

(** [for (TFieldIterator<FProperty> PropIt(Object->GetClass()); ...)] *)
Fixpoint scan_properties (Props : list (option FProperty)) (st : WalkState)
  : Result WalkState :=
  match Props with
  | [] => Done st
  | Property :: rest =>
      st' ← scan_property Property st;
      scan_properties rest st'
  end.

End Loops.

(** [CountReferencedObjects(Object, Visited)] with at most [fuel] nested
    calls; it returns the count and the updated [Visited]. *)
Fixpoint CountReferencedObjects_fuel (fuel : nat) (h : Heap)
    (Object : ptr) (Visited : gset addr) : Result WalkState :=
  match fuel with
  | O => OutOfFuel
  | S fuel' =>
      match Object with
      | None => Done (0, Visited)
      | Some o =>
          if decide (o ∈ Visited) then Done (0, Visited)
          else
            match h !! o with
            | None => InvalidDeref
            | Some obj =>
                scan_properties (CountReferencedObjects_fuel fuel' h)
                  (Properties obj) (1, {[o]} ∪ Visited)
            end
      end
  end.

(** Nested calls each add a new heap object to [Visited], so one more
    call than there are objects is always enough. *)
Definition CountReferencedObjects (h : Heap) (Object : ptr)
    (Visited : gset addr) : Result WalkState :=
  CountReferencedObjects_fuel (S (size h)) h Object Visited.

End Walker.

Export Walker.

(** ** UE_LOG output *)

Inductive ELogVerbosity : Type := Log | Warning | Error.

Record LogLine : Type := mkLogLine {
  Verbosity : ELogVerbosity;
  Message : string
}.

(** ** Floats *)

(** [float] is IEEE-754 binary32. *)
Abbreviation float := spec_float.

Definition float_zero : float := S754_zero false.
Definition float_add (a b : float) : float := SFadd 24 128 a b.
(** [a <= b] and [a >= b] of C++; false when either side is a NaN. *)
Definition float_le (a b : float) : bool := SFleb a b.
Definition float_ge (a b : float) : bool := SFleb b a.

(** [1.0f], [5.0f] and [0.01f] *)
Definition float_1 : float := S754_finite false 8388608 (-23).
Definition float_5 : float := S754_finite false 10485760 (-21).
Definition float_0_01 : float := S754_finite false 10737418 (-30).

(** Modelled from the spec: [FMath::Max] is an engine function; the
    specification has [StartTracking] clamp the interval to a floor, so
    the larger argument is returned, [(A >= B) ? A : B]. *)
Definition FMath_Max (A B : float) : float := if float_ge A B then A else B.

(** ** TArray helpers *)

(** Modelled from the spec: [TArray::RemoveAtSwap(Index)] is an engine
    function, described as an order-disturbing removal by swap with the
    last element: the last element takes the place of the removed one.
    The engine's range check aborts when [Index] is not below [Num()];
    every call of the tracker passes an index it has just read, and the
    model leaves the array as it is otherwise. *)
Definition RemoveAtSwap {A : Type} (Index : nat) (l : list A) : list A :=
  if decide (Index < length l)%nat then
    match last l with
    | Some x =>
        if decide (Index = length l - 1)%nat then take (length l - 1) l
        else <[Index := x]> (take (length l - 1) l)
    | None => l
    end
  else l.

(** ** UMemoryUsageTracker *)

Module Tracker.

Record FMemoryUsageInfo : Type := mkInfo {
  ObjectName : string;
  TrackedObject : ptr;
  MemoryBytes : Z;
  NumReferencedObjects : Z
}.

(** [TWeakObjectPtr<UObject>]: the address it was made from, or null. An
    object that is destroyed leaves the heap, and its address is not given
    to another object. *)
Abbreviation TWeakObjectPtr := (option addr).

(** Modelled from the spec: [TWeakObjectPtr::IsValid()] is an engine
    function; the handle reports whether its referent is still there, and
    a referent that is pending kill counts as gone. *)
Definition IsValid (h : Heap) (w : TWeakObjectPtr) : bool :=
  match w with
  | None => false
  | Some p =>
      match h !! p with
      | Some o => negb (bPendingKill o)
      | None => false
      end
  end.

(** Modelled from the spec: [TWeakObjectPtr::Get()], the referent of a
    valid handle and null otherwise. *)
Definition Get (h : Heap) (w : TWeakObjectPtr) : ptr :=
  if IsValid h w then w else None.

Record UMemoryUsageTracker : Type := mkTracker {
  TimeAccumulator : float;
  SampleInterval : float;
  TrackedObjects : list TWeakObjectPtr;
  CachedMemoryInfo : list FMemoryUsageInfo;
  bComponentTickEnabled : bool
}.

(** The constructor followed by [BeginPlay]. *)
Definition NewTracker : UMemoryUsageTracker :=
  {| TimeAccumulator := float_zero;
     SampleInterval := float_5;
     TrackedObjects := [];
     CachedMemoryInfo := [];
     bComponentTickEnabled := true |}.

Definition StartTracking (SamplingInterval : float)
    (t : UMemoryUsageTracker) : UMemoryUsageTracker :=
  {| TimeAccumulator := TimeAccumulator t;
     SampleInterval := FMath_Max SamplingInterval float_0_01;
     TrackedObjects := TrackedObjects t;
     CachedMemoryInfo := CachedMemoryInfo t;
     bComponentTickEnabled := true |}.

Definition StopTracking (t : UMemoryUsageTracker) : UMemoryUsageTracker :=
  {| TimeAccumulator := TimeAccumulator t;
     SampleInterval := SampleInterval t;
     TrackedObjects := TrackedObjects t;
     CachedMemoryInfo := CachedMemoryInfo t;
     bComponentTickEnabled := false |}.

Definition set_tracked (tr : list TWeakObjectPtr)
    (t : UMemoryUsageTracker) : UMemoryUsageTracker :=
  {| TimeAccumulator := TimeAccumulator t;
     SampleInterval := SampleInterval t;
     TrackedObjects := tr;
     CachedMemoryInfo := CachedMemoryInfo t;
     bComponentTickEnabled := bComponentTickEnabled t |}.

(** *** CalculateMemoryUsage *)

(** One iteration of the property loop: the new [TotalSize]. The array
    product is an [int32] product; every sum is an [int64] sum. *)
Definition add_property (TotalSize : Z) (Property : option FProperty) : Z :=
  match Property with
  | None => TotalSize
  | Some (FArrayProperty ElementSize Contents) =>
      wrap64 (TotalSize + wrap32 (ArrayNum Contents * ElementSize))
  | Some (FStrProperty AllocatedSize) => wrap64 (TotalSize + AllocatedSize)
  | Some (FNameProperty _) => TotalSize
  | Some (FObjectPropertyBase _ _) => TotalSize
  | Some (FOtherProperty ElementSize) => wrap64 (TotalSize + ElementSize)
  end.

(** [sizeof_UObject] is the size of the object header that [sizeof]
    yields for the dereferenced [Object], fixed by the platform. *)
Definition CalculateMemoryUsage (sizeof_UObject : Z) (h : Heap)
    (Object : ptr) : Result Z :=
  match Object with
  | None => Done 0
  | Some p =>
      match h !! p with
      | None => InvalidDeref
      | Some o =>
          Done (fold_left add_property (Properties o)
                  (wrap64 (0 + sizeof_UObject)))
      end
  end.

(** *** RegisterObject and UnregisterObject *)

Definition RegisterObject_warning : LogLine :=
  mkLogLine Warning "[MemoryUsageTracker] RegisterObject called with null.".
Definition UnregisterObject_warning : LogLine :=
  mkLogLine Warning "[MemoryUsageTracker] UnregisterObject called with null.".

(** The scan of [RegisterObject]: true when it returns early. *)
Fixpoint already_tracked (h : Heap) (ObjectToTrack : ptr)
    (tr : list TWeakObjectPtr) : bool :=
  match tr with
  | [] => false
  | WeakObj :: rest =>
      if decide (Get h WeakObj = ObjectToTrack) then true
      else already_tracked h ObjectToTrack rest
  end.

Definition RegisterObject (h : Heap) (ObjectToTrack : ptr)
    (t : UMemoryUsageTracker) : UMemoryUsageTracker * list LogLine :=
  match ObjectToTrack with
  | None => (t, [RegisterObject_warning])
  | Some _ =>
      if already_tracked h ObjectToTrack (TrackedObjects t) then (t, [])
      else (set_tracked (TrackedObjects t ++ [ObjectToTrack]) t, [])
  end.

(** [for (Index = Num() - 1; Index >= 0; --Index)] of [UnregisterObject],
    entered with [k = Index + 1]. *)
Fixpoint unregister_scan (h : Heap) (ObjectToRemove : ptr) (k : nat)
    (tr : list TWeakObjectPtr) : list TWeakObjectPtr :=
  match k with
  | O => tr
  | S Index =>
      match tr !! Index with
      | Some WeakObj =>
          if decide (Get h WeakObj = ObjectToRemove)
          then RemoveAtSwap Index tr
          else unregister_scan h ObjectToRemove Index tr
      | None => unregister_scan h ObjectToRemove Index tr
      end
  end.

Definition UnregisterObject (h : Heap) (ObjectToRemove : ptr)
    (t : UMemoryUsageTracker) : UMemoryUsageTracker * list LogLine :=
  match ObjectToRemove with
  | None => (t, [UnregisterObject_warning])
  | Some _ =>
      (set_tracked
         (unregister_scan h ObjectToRemove (length (TrackedObjects t))
            (TrackedObjects t)) t, [])
  end.

Definition GetTrackedMemoryInfo (t : UMemoryUsageTracker)
  : list FMemoryUsageInfo := CachedMemoryInfo t.

(** *** TickComponent *)

(** What one sampling pass works on: [TrackedObjects], [CachedMemoryInfo]. *)
Definition PassState : Type := list TWeakObjectPtr * list FMemoryUsageInfo.

(** The body of the sampling loop at [Index]. *)
Definition sample_at (sizeof_UObject : Z) (h : Heap) (Index : nat)
    (st : PassState) : Result PassState :=
  let '(tr, cache) := st in
  match tr !! Index with
  | None => Done (tr, cache)
  | Some WeakObj =>
      if IsValid h WeakObj then
        match Get h WeakObj with
        | Some p =>
            match h !! p with
            | None => InvalidDeref
            | Some o =>
                if negb (bPendingKill o) then
                  bytes ← CalculateMemoryUsage sizeof_UObject h (Some p);
                  '(n, _) ← CountReferencedObjects h (Some p) ∅;
                  Done (tr, cache ++ [mkInfo (ObjName o) (Some p) bytes n])
                else Done (RemoveAtSwap Index tr, cache)
            end
        | None => Done (RemoveAtSwap Index tr, cache)
        end
      else Done (RemoveAtSwap Index tr, cache)
  end.

(** [for (Index = Num() - 1; Index >= 0; --Index)], entered with
    [k = Index + 1]. *)
Fixpoint sampling_loop (sizeof_UObject : Z) (h : Heap) (k : nat)
    (st : PassState) : Result PassState :=
  match k with
  | O => Done st
  | S Index =>
      st' ← sample_at sizeof_UObject h Index st;
      sampling_loop sizeof_UObject h Index st'
  end.

(** [ClearCachedInfo()] and the loop over the tracked objects. *)
Definition sampling_pass (sizeof_UObject : Z) (h : Heap)
    (tr : list TWeakObjectPtr) : Result PassState :=
  sampling_loop sizeof_UObject h (length tr) (tr, []).

Definition TickComponent (sizeof_UObject : Z) (h : Heap) (DeltaTime : float)
    (t : UMemoryUsageTracker) : Result UMemoryUsageTracker :=
  if float_le (SampleInterval t) float_zero
     || bool_decide (length (TrackedObjects t) = 0%nat)
  then Done t
  else
    let acc := float_add (TimeAccumulator t) DeltaTime in
    if float_ge acc (SampleInterval t) then
      '(tr, cache) ← sampling_pass sizeof_UObject h (TrackedObjects t);
      Done {| TimeAccumulator := float_zero;
              SampleInterval := SampleInterval t;
              TrackedObjects := tr;
              CachedMemoryInfo := cache;
              bComponentTickEnabled := bComponentTickEnabled t |}
    else
      Done {| TimeAccumulator := acc;
              SampleInterval := SampleInterval t;
              TrackedObjects := TrackedObjects t;
              CachedMemoryInfo := CachedMemoryInfo t;
              bComponentTickEnabled := bComponentTickEnabled t |}.

(** The scheduler calls [TickComponent] once per frame while ticking is
    enabled. *)
Definition Advance (sizeof_UObject : Z) (h : Heap) (DeltaTime : float)
    (t : UMemoryUsageTracker) : Result UMemoryUsageTracker :=
  if bComponentTickEnabled t then TickComponent sizeof_UObject h DeltaTime t
  else Done t.

End Tracker.

Export Tracker.

(** ** FString operations used by the event logger *)

Module FStr.

(** Modelled from the spec: [TChar::ToLower], [FString::ToLower] and
    [FString::Contains] are engine functions that are not in the
    repository. The specification describes their combined use as a
    case-insensitive substring test that an empty term always passes;
    [ToLower] folds the letters [A]..[Z], and [Contains] (whose default
    search case ignores case) looks for a position where the term matches
    letter by letter up to case. *)
Definition TChar_ToLower (c : ascii) : ascii :=
  let n := nat_of_ascii c in
  if ((65 <=? n) && (n <=? 90))%nat then ascii_of_nat (n + 32) else c.

(** Modelled from the spec: [FString::ToLower], letter by letter. *)
Fixpoint ToLower (s : string) : string :=
  match s with
  | EmptyString => EmptyString
  | String c s' => String (TChar_ToLower c) (ToLower s')
  end.

(** Modelled from the spec: whether [sub] matches at the start of [s],
    ignoring case; the comparison [Contains] makes at each position. *)
Fixpoint matches_at_start (sub s : string) : bool :=
  match sub, s with
  | EmptyString, _ => true
  | String _ _, EmptyString => false
  | String a sub', String b s' =>
      bool_decide (TChar_ToLower a = TChar_ToLower b)
      && matches_at_start sub' s'
  end.

(** Modelled from the spec: [FString::Contains] with its default search
    case, a match at some position of [s]; the empty [sub] matches at the
    start of every string. *)
Fixpoint Contains (s sub : string) : bool :=
  matches_at_start sub s
  || match s with
     | EmptyString => false
     | String _ s' => Contains s' sub
     end.

Definition IsEmpty (s : string) : bool :=
  match s with EmptyString => true | String _ _ => false end.

Definition quote_char : ascii := "034"%char.
Definition comma_char : ascii := ","%char.
Definition newline : string := String "010"%char EmptyString.

(** [Output.ReplaceInline(quote, quote quote)] *)
Fixpoint double_quotes (s : string) : string :=
  match s with
  | EmptyString => EmptyString
  | String c s' =>
      if bool_decide (c = quote_char)
      then String quote_char (String quote_char (double_quotes s'))
      else String c (double_quotes s')
  end.

End FStr.

(** ** UGameplayEventLogger *)

Module Logger.

Import FStr.

(** [FDateTime]: a number of ticks. *)
Definition FDateTime := Z.

Record FGameplayEventEntry : Type := mkEntry {
  EventName : string;
  Context : string;
  GameTime : float;
  RealTimestamp : FDateTime
}.

Record UGameplayEventLogger : Type := mkLogger {
  EventLog : list FGameplayEventEntry
}.

Definition NewLogger : UGameplayEventLogger := {| EventLog := [] |}.

(** What an operation reads from its surroundings: the clock of the world
    ([None] when [GetWorld()] is null), [FDateTime::UtcNow()], and whether
    the build defines [WITH_EDITOR]. *)
Record Environment : Type := mkEnv {
  WorldTimeSeconds : option float;
  UtcNow : FDateTime;
  WITH_EDITOR : bool
}.

Definition LogEvent_warning : LogLine :=
  mkLogLine Warning
    "[GameplayEventLogger] LogEvent called with empty EventName.".
Definition Export_warning : LogLine :=
  mkLogLine Warning "[GameplayEventLogger] No events to export.".

(** [SanitizeForCSV] *)
Definition SanitizeForCSV (Input : string) : string :=
  if Contains Input (String quote_char EmptyString)
     || Contains Input (String comma_char EmptyString)
  then String quote_char (double_quotes Input +:+ String quote_char EmptyString)
  else Input.

Definition ClearLog (l : UGameplayEventLogger) : UGameplayEventLogger :=
  {| EventLog := [] |}.

Definition GetEventLog (l : UGameplayEventLogger)
  : list FGameplayEventEntry := EventLog l.

Definition GetEventCount (l : UGameplayEventLogger) : Z :=
  Z.of_nat (length (EventLog l)).

(** The loop of [SearchEventsByName]. *)
Fixpoint search_by_name (SearchTermLower : string)
    (log : list FGameplayEventEntry) (Results : list FGameplayEventEntry)
  : list FGameplayEventEntry :=
  match log with
  | [] => Results
  | Entry :: rest =>
      if Contains (ToLower (EventName Entry)) SearchTermLower
      then search_by_name SearchTermLower rest (Results ++ [Entry])
      else search_by_name SearchTermLower rest Results
  end.

Definition SearchEventsByName (l : UGameplayEventLogger)
    (SearchTerm : string) : list FGameplayEventEntry :=
  search_by_name (ToLower SearchTerm) (EventLog l) [].

(** The loop of [SearchEventsByContext]. *)
Fixpoint search_by_context (SearchTermLower : string)
    (log : list FGameplayEventEntry) (Results : list FGameplayEventEntry)
  : list FGameplayEventEntry :=
  match log with
  | [] => Results
  | Entry :: rest =>
      if Contains (ToLower (Context Entry)) SearchTermLower
      then search_by_context SearchTermLower rest (Results ++ [Entry])
      else search_by_context SearchTermLower rest Results
  end.

Definition SearchEventsByContext (l : UGameplayEventLogger)
    (SearchTerm : string) : list FGameplayEventEntry :=
  search_by_context (ToLower SearchTerm) (EventLog l) [].

Section Formatting.

(** [FString::Printf] of a float with three decimals, and
    [FDateTime::ToString]: engine formatting, taken as given. *)
Variable Printf_3f : float -> string.
Variable DateTime_ToString : FDateTime -> string.

Definition LogEvent (env : Environment) (Name Ctx : string)
    (l : UGameplayEventLogger) : UGameplayEventLogger * list LogLine :=
  if IsEmpty Name then (l, [LogEvent_warning])
  else
    let CurrentGameTime :=
      match WorldTimeSeconds env with
      | Some t => t
      | None => float_zero
      end in
    let NewEntry := mkEntry Name Ctx CurrentGameTime (UtcNow env) in
    ({| EventLog := EventLog l ++ [NewEntry] |},
     if WITH_EDITOR env then
       [mkLogLine Log
          ("[GameplayEventLogger] Event Logged: '" +:+ Name
           +:+ "' | Context: '" +:+ Ctx
           +:+ "' | GameTime: " +:+ Printf_3f CurrentGameTime
           +:+ " | UTC: " +:+ DateTime_ToString (RealTimestamp NewEntry))]
     else []).

Definition csv_header : string :=
  "GameTime,EventName,Context,UTC_Timestamp" +:+ newline.

Definition csv_row (Entry : FGameplayEventEntry) : string :=
  Printf_3f (GameTime Entry) +:+ "," +:+ SanitizeForCSV (EventName Entry)
  +:+ "," +:+ SanitizeForCSV (Context Entry)
  +:+ "," +:+ DateTime_ToString (RealTimestamp Entry) +:+ newline.

(** [CSVContent] after the loop over the log. *)
Definition csv_content (log : list FGameplayEventEntry) : string :=
  fold_left (fun CSVContent Entry => CSVContent +:+ csv_row Entry)
    log csv_header.

(** The files of the machine, by path. *)
Definition FileSystem := gmap string string.

(** [FFileHelper::SaveStringToFile(Content, Path)]: whether it saved, and
    the files afterwards. The engine and the operating system decide. *)
Variable SaveStringToFile :
  string -> string -> FileSystem -> bool * FileSystem.

Definition ExportLogToCSV (FilePath : string) (l : UGameplayEventLogger)
    (fs : FileSystem) : bool * FileSystem * list LogLine :=
  if bool_decide (length (EventLog l) = 0%nat)
  then (false, fs, [Export_warning])
  else
    let CSVContent := csv_content (EventLog l) in
    let '(bSaved, fs') := SaveStringToFile CSVContent FilePath fs in
    (bSaved, fs',
     if bSaved then []
     else [mkLogLine Error
             ("[GameplayEventLogger] Failed to save CSV to path: "
              +:+ FilePath)]).

End Formatting.

End Logger.

Export Logger.

(** ** The reference graph of a heap *)

Module Graph.

(** The object pointers a property holds: the value of an object property,
    the elements of an array of object properties. *)
Definition prop_ptrs (Property : option FProperty) : list ptr :=
  match Property with
  | Some (FObjectPropertyBase _ RefObject) => [RefObject]
  | Some (FArrayProperty _ (ObjectElements Elements)) => Elements
  | _ => []
  end.

Definition referenced_ptrs (obj : UObject) : list ptr :=
  concat (map prop_ptrs (Properties obj)).

(** [edge h a b]: object [a] of the heap references object [b] through one
    of its reference-typed fields. *)
Definition edge (h : Heap) (a b : addr) : Prop :=
  exists obj, h !! a = Some obj /\ Some b ∈ referenced_ptrs obj.

(** Reachable from [root] by following references; [root] itself is. *)
Definition reachable (h : Heap) (root x : addr) : Prop := rtc (edge h) root x.

Definition ptr_in_heap (h : Heap) (r : ptr) : Prop :=
  match r with
  | Some b => b ∈ dom h
  | None => True
  end.

#[export] Instance ptr_in_heap_dec h r : Decision (ptr_in_heap h r).
Proof. destruct r; simpl; apply _. Defined.

(** No reference of a heap object dangles: it is null or points to an
    object of the heap. *)
Definition heap_closed (h : Heap) : Prop :=
  map_Forall (fun _ obj => Forall (ptr_in_heap h) (referenced_ptrs obj)) h.

#[export] Instance heap_closed_dec h : Decision (heap_closed h).
Proof. unfold heap_closed. apply _. Defined.

(** Every reference the property holds points to [o] itself. *)
Definition self_referential (o : addr) (Property : option FProperty) : Prop :=
  Forall (fun r => r = None \/ r = Some o) (prop_ptrs Property).

(** [obj] with one more property, placed after the first [i]. *)
Definition with_property (i : nat) (Property : option FProperty)
    (obj : UObject) : UObject :=
  {| ObjName := ObjName obj;
     bPendingKill := bPendingKill obj;
     Properties :=
       take i (Properties obj) ++ Property :: drop i (Properties obj) |}.

(** Objects of the heap not yet in [V]: a bound on the calls still to
    nest. *)
Definition unvisited (h : Heap) (V : gset addr) : nat := size (dom h ∖ V).

(** What a call on [r] that passes the guard establishes, from [V] to
    [V']. *)
Definition walked (h : Heap) (r : addr) (V V' : gset addr) : Prop :=
  V ⊆ V' /\ r ∈ V' /\ V' ⊆ V ∪ dom h
  /\ (forall x, x ∈ V' -> x ∉ V -> reachable h r x)
  /\ (forall x y, x ∈ V' -> x ∉ V -> edge h x y -> y ∈ V').

Definition call_ok (h : Heap) (rec : ptr -> gset addr -> Result WalkState)
    (n : nat) : Prop :=
  forall r V, r ∈ dom h -> r ∉ V -> (unvisited h V <= n)%nat ->
    exists V',
      rec (Some r) V
      = Done (wrap32 (Z.of_nat (size V') - Z.of_nat (size V)), V')
      /\ walked h r V V'.

(** Root [1] references [2] and [3] through an array, [2] references [3]. *)
Definition object_A : UObject :=
  mkUObject "A" false
    [Some (FOtherProperty 4);
     Some (FArrayProperty 8 (ObjectElements [Some 2; Some 3]))%positive].

Definition heap_ABC : Heap :=
  {[ 1%positive := object_A;
     2%positive :=
       mkUObject "B" false [Some (FObjectPropertyBase 8 (Some 3%positive))];
     3%positive := mkUObject "C" false [Some (FStrProperty 32)] ]}.

(** [heap_ABC] where [A] also holds a reference to itself. *)
Definition heap_ABC_self : Heap :=
  <[1%positive :=
      mkUObject "A" false
        [Some (FObjectPropertyBase 8 (Some 1%positive));
         Some (FOtherProperty 4);
         Some (FArrayProperty 8 (ObjectElements [Some 2; Some 3]))%positive]]>
    heap_ABC.

End Graph.

Export Graph.

(** ** The sizes the estimator adds up *)

Module Sizes.

(** What a property adds to [TotalSize] when nothing overflows. *)
Definition property_bytes (Property : option FProperty) : Z :=
  match Property with
  | Some (FArrayProperty ElementSize Contents) =>
      ArrayNum Contents * ElementSize
  | Some (FStrProperty AllocatedSize) => AllocatedSize
  | Some (FOtherProperty ElementSize) => ElementSize
  | Some (FNameProperty _) | Some (FObjectPropertyBase _ _) | None => 0
  end.

(** What [add_property] adds, the array product being an [int32]. *)
Definition added_bytes (Property : option FProperty) : Z :=
  match Property with
  | Some (FArrayProperty ElementSize Contents) =>
      wrap32 (ArrayNum Contents * ElementSize)
  | _ => property_bytes Property
  end.

Definition sum_bytes (f : option FProperty -> Z)
    (Props : list (option FProperty)) : Z :=
  foldr (fun Property acc => f Property + acc) 0 Props.

(** The array products of the properties fit [int32]. *)
Definition products_fit (Props : list (option FProperty)) : Prop :=
  Forall (fun Property =>
            match Property with
            | Some (FArrayProperty ElementSize Contents) =>
                in_int32 (ArrayNum Contents * ElementSize)
            | _ => True
            end) Props.

(** The contribution the specification words: an array of object
    references counts as an object-reference field and adds nothing, and
    every kind it does not name adds its declared width. *)
Definition stated_bytes (Property : option FProperty) : Z :=
  match Property with
  | Some (FArrayProperty ElementSize (RawElements Num)) => Num * ElementSize
  | Some (FArrayProperty _ (ObjectElements _)) => 0
  | Some (FStrProperty AllocatedSize) => AllocatedSize
  | Some (FObjectPropertyBase _ _) => 0
  | Some (FNameProperty ElementSize) => ElementSize
  | Some (FOtherProperty ElementSize) => ElementSize
  | None => 0
  end.

Definition stated_memory_usage (sizeof_UObject : Z) (h : Heap)
    (Object : ptr) : Result Z :=
  match Object with
  | None => Done 0
  | Some p =>
      match h !! p with
      | None => InvalidDeref
      | Some o => Done (sizeof_UObject + sum_bytes stated_bytes (Properties o))
      end
  end.

End Sizes.

Export Sizes.

(** ** Case-insensitive substrings *)

Module Substring.

Import FStr.

(** [term] occurs in [s] up to the case of letters. *)
Definition ci_substring (term s : string) : Prop :=
  exists pre mid post,
    s = pre +:+ mid +:+ post /\ ToLower mid = ToLower term.

End Substring.

Export Substring.

(** ** Live referents of the tracked handles *)

Module Handles.

Definition live (h : Heap) (w : TWeakObjectPtr) : Prop := IsValid h w = true.

#[export] Instance live_dec h w : Decision (live h w).
Proof. unfold live. apply _. Defined.

(** The objects the handles resolve to, in the order of the handles. *)
Definition live_referents (h : Heap) (tr : list TWeakObjectPtr) : list addr :=
  omap (Get h) tr.

(** No two handles resolve to the same live object. *)
Definition no_duplicates (h : Heap) (t : UMemoryUsageTracker) : Prop :=
  NoDup (live_referents h (TrackedObjects t)).

(** The record a sampling pass builds for a live handle. *)
Definition record_of (sizeof_UObject : Z) (h : Heap) (w : TWeakObjectPtr)
    (info : FMemoryUsageInfo) : Prop :=
  exists o V,
    w ≫= (h !!.) = Some o
    /\ TrackedObject info = w
    /\ ObjectName info = ObjName o
    /\ CalculateMemoryUsage sizeof_UObject h w = Done (MemoryBytes info)
    /\ CountReferencedObjects h w ∅ = Done (NumReferencedObjects info, V).

(** What the specification says of the accumulator after a tick. *)
Definition stated_accumulator (DeltaTime : float) (t : UMemoryUsageTracker)
  : float :=
  let acc := float_add (TimeAccumulator t) DeltaTime in
  if float_ge acc (SampleInterval t) then float_zero else acc.

End Handles.

Export Handles.

(** ** Further operations of the repository *)

Module Utilities.



End Utilities.

Export Utilities.

(** ** Sequences of calls *)

Module Calls.

(** One call of [LogEvent]: what it reads, the name and the context. *)
Definition LogCall : Type := Environment * string * string.

(** The calls of [LogEvent] in turn, from the logger [l]. *)
Definition LogEvents (Printf_3f : float -> string)
    (DateTime_ToString : FDateTime -> string)
    (calls : list LogCall) (l : UGameplayEventLogger) : UGameplayEventLogger :=
  foldl (fun l call =>
           (LogEvent Printf_3f DateTime_ToString call.1.1 call.1.2 call.2 l).1)
    l calls.

(** The entry a call appends. *)
Definition entry_of (call : LogCall) : FGameplayEventEntry :=
  mkEntry call.1.2 call.2
    (default float_zero (WorldTimeSeconds call.1.1)) (UtcNow call.1.1).


(** The character occurs in the string. *)
Fixpoint occurs (c : ascii) (s : string) : Prop :=
  match s with
  | EmptyString => False
  | String c' s' => c' = c \/ occurs c s'
  end.

End Calls.

Export Calls.

(** * Properties *)

(** ** Wrap-around arithmetic *)

Lemma wrap32_small z : in_int32 z -> wrap32 z = z.
Proof. unfold in_int32, wrap32. intros Hz. rewrite Z.mod_small; lia. Qed.

Lemma wrap64_small z : in_int64 z -> wrap64 z = z.
Proof. unfold in_int64, wrap64. intros Hz. rewrite Z.mod_small; lia. Qed.

Lemma wrap32_add_r a b : wrap32 (a + wrap32 b) = wrap32 (a + b).
Proof.
  unfold wrap32. f_equal.
  replace (a + ((b + 2 ^ 31) mod 2 ^ 32 - 2 ^ 31) + 2 ^ 31)
    with (a + (b + 2 ^ 31) mod 2 ^ 32) by lia.
  rewrite Zplus_mod_idemp_r. f_equal. lia.
Qed.

Lemma wrap32_add_l a b : wrap32 (wrap32 a + b) = wrap32 (a + b).
Proof. rewrite (Z.add_comm (wrap32 a)), wrap32_add_r. f_equal. lia. Qed.

Lemma wrap64_add_r a b : wrap64 (a + wrap64 b) = wrap64 (a + b).
Proof.
  unfold wrap64. f_equal.
  replace (a + ((b + 2 ^ 63) mod 2 ^ 64 - 2 ^ 63) + 2 ^ 63)
    with (a + (b + 2 ^ 63) mod 2 ^ 64) by lia.
  rewrite Zplus_mod_idemp_r. f_equal. lia.
Qed.

Lemma wrap64_add_l a b : wrap64 (wrap64 a + b) = wrap64 (a + b).
Proof. rewrite (Z.add_comm (wrap64 a)), wrap64_add_r. f_equal. lia. Qed.

(** ** The reference walker *)

Section WalkerLoops.

Variable rec : ptr -> gset addr -> Result WalkState.

Lemma scan_elements_app l1 l2 st :
  scan_elements rec (l1 ++ l2) st
  = (st' ← scan_elements rec l1 st; scan_elements rec l2 st').
Proof.
  revert st. induction l1 as [|r l1 IH]; intros st; simpl; [done|].
  destruct (visit_reference rec r st) as [st'| |]; simpl; [apply IH|done..].
Qed.

(** The property loop visits the pointers of [prop_ptrs] in order. *)
Lemma scan_property_ptrs P st :
  scan_property rec P st = scan_elements rec (prop_ptrs P) st.
Proof.
  destruct P as [[es [els|n]|a|es|es r|es]|]; simpl; try done.
  by destruct (visit_reference rec r st).
Qed.

Lemma scan_properties_ptrs Props st :
  scan_properties rec Props st
  = scan_elements rec (concat (map prop_ptrs Props)) st.
Proof.
  revert st. induction Props as [|P Props IH]; intros st; simpl; [done|].
  rewrite scan_elements_app, scan_property_ptrs.
  destruct (scan_elements rec (prop_ptrs P) st); simpl; [apply IH|done..].
Qed.

End WalkerLoops.

(** More fuel does not change a result. *)
Lemma scan_elements_mono rec1 rec2 :
  (forall r V st, rec1 r V = Done st -> rec2 r V = Done st) ->
  forall els st st',
    scan_elements rec1 els st = Done st' ->
    scan_elements rec2 els st = Done st'.
Proof.
  intros Hrec els. induction els as [|r els IH]; intros st st'; simpl; [done|].
  destruct (visit_reference rec1 r st) as [st1| |] eqn:E1; simpl; try done.
  intros Hrest.
  assert (visit_reference rec2 r st = Done st1) as ->.
  { destruct st as [c V]. unfold visit_reference in *.
    destruct r as [r|]; [|done].
    destruct (decide (r ∈ V)) as [Hin|Hnin]; [done|].
    destruct (rec1 (Some r) V) as [[k V1]| |] eqn:E; simpl in *; try done.
    by rewrite (Hrec _ _ _ E). }
  simpl. by apply IH.
Qed.

Lemma CountReferencedObjects_fuel_mono h n m Object V st :
  (n <= m)%nat ->
  CountReferencedObjects_fuel n h Object V = Done st ->
  CountReferencedObjects_fuel m h Object V = Done st.
Proof.
  revert m Object V st.
  induction n as [|n IH]; intros m Object V st Hle; simpl; [done|].
  destruct m as [|m]; [lia|]. simpl.
  destruct Object as [o|]; [|done].
  destruct (decide (o ∈ V)); [done|].
  destruct (h !! o) as [obj|]; [|done].
  rewrite !scan_properties_ptrs.
  apply scan_elements_mono. intros r V' st'. apply IH. lia.
Qed.

Section WalkerCorrect.

Variable h : Heap.
Hypothesis Hclosed : heap_closed h.

Lemma closed_edge a b : edge h a b -> b ∈ dom h.
Proof.
  intros (obj & Hobj & Hin).
  pose proof (Hclosed a obj Hobj) as Hall. simpl in Hall.
  rewrite Forall_forall in Hall. exact (Hall _ Hin).
Qed.

Lemma unvisited_mono V V' : V ⊆ V' -> (unvisited h V' <= unvisited h V)%nat.
Proof. intros HV. unfold unvisited. apply subseteq_size. set_solver. Qed.

Lemma unvisited_add o V :
  o ∈ dom h -> o ∉ V -> (S (unvisited h ({[o]} ∪ V)) <= unvisited h V)%nat.
Proof.
  intros Ho HV. unfold unvisited.
  assert (dom h ∖ ({[o]} ∪ V) ⊂ dom h ∖ V) as Hsub by set_solver.
  apply subset_size in Hsub. lia.
Qed.

Lemma scan_elements_ok rec n :
  call_ok h rec n ->
  forall els c V,
    Forall (ptr_in_heap h) els ->
    (unvisited h V <= n)%nat ->
    exists V',
      scan_elements rec els (wrap32 c, V)
      = Done (wrap32 (c + (Z.of_nat (size V') - Z.of_nat (size V))), V')
      /\ V ⊆ V' /\ V' ⊆ V ∪ dom h
      /\ (forall x, x ∈ V' -> x ∉ V ->
            exists r, Some r ∈ els /\ reachable h r x)
      /\ (forall x y, x ∈ V' -> x ∉ V -> edge h x y -> y ∈ V')
      /\ (forall r, Some r ∈ els -> r ∈ V').
Proof.
  intros Hrec els. induction els as [|r els IH]; intros c V Hels Hn.
  - exists V. simpl. split; [do 3 f_equal; lia|].
    split; [done|]. split; [set_solver|].
    split; [intros x Hx Hx'; done|]. split; [intros x y Hx Hx'; done|].
    intros r Hr. by apply elem_of_nil in Hr.
  - apply Forall_cons in Hels as [Hr Hels]. simpl.
    destruct r as [r|].
    + destruct (decide (r ∈ V)) as [Hin|Hnin].
      * simpl. destruct (IH c V Hels Hn) as (V' & -> & H1 & H2 & H3 & H4 & H5).
        exists V'. split; [done|]. repeat split; try done.
        -- intros x Hx Hx'. destruct (H3 x Hx Hx') as (r' & Hr' & Hreach).
           exists r'. split; [by right|done].
        -- intros r' [->%(inj Some)|Hr']%elem_of_cons; [set_solver|eauto].
      * destruct (Hrec r V Hr Hnin Hn) as (V1 & -> & G1 & G2 & G3 & G4 & G5).
        simpl. rewrite wrap32_add_l, wrap32_add_r.
        assert (unvisited h V1 <= n)%nat as Hn1
          by (pose proof (unvisited_mono V V1 G1); lia).
        destruct (IH (c + (Z.of_nat (size V1) - Z.of_nat (size V))) V1
                    Hels Hn1) as (V' & -> & H1 & H2 & H3 & H4 & H5).
        exists V'. split; [do 3 f_equal; lia|].
        split; [set_solver|]. split; [set_solver|]. split; [|split].
        -- intros x Hx Hx'. destruct (decide (x ∈ V1)) as [Hx1|Hx1].
           ++ exists r. split; [by left|auto].
           ++ destruct (H3 x Hx Hx1) as (r' & Hr' & Hreach).
              exists r'. split; [by right|done].
        -- intros x y Hx Hx' Hxy. destruct (decide (x ∈ V1)) as [Hx1|Hx1].
           ++ apply H1. eauto.
           ++ eauto.
        -- intros r' [->%(inj Some)|Hr']%elem_of_cons; [set_solver|eauto].
    + simpl. destruct (IH c V Hels Hn) as (V' & -> & H1 & H2 & H3 & H4 & H5).
      exists V'. split; [done|]. repeat split; try done.
      * intros x Hx Hx'. destruct (H3 x Hx Hx') as (r' & Hr' & Hreach).
        exists r'. split; [by right|done].
      * intros r' [?|Hr']%elem_of_cons; [done|eauto].
Qed.

Lemma CountReferencedObjects_fuel_ok n :
  call_ok h (CountReferencedObjects_fuel n h) n.
Proof.
  induction n as [|n IH]; intros o V Ho HV Hn.
  - exfalso. pose proof (unvisited_add o V Ho HV). lia.
  - simpl. rewrite decide_False by done.
    apply elem_of_dom in Ho as Hobj. destruct Hobj as [obj Hobj].
    rewrite Hobj, scan_properties_ptrs.
    assert (unvisited h ({[o]} ∪ V) <= n)%nat as Hn1
      by (pose proof (unvisited_add o V Ho HV); lia).
    assert (Forall (ptr_in_heap h) (concat (map prop_ptrs (Properties obj))))
      as Hels by exact (Hclosed o obj Hobj).
    change 1 with (wrap32 1).
    destruct (scan_elements_ok _ n IH _ 1 _ Hels Hn1)
      as (V' & -> & H1 & H2 & H3 & H4 & H5).
    exists V'. split.
    { do 3 f_equal. rewrite size_union, size_singleton by set_solver. lia. }
    split; [set_solver|]. split; [set_solver|]. split; [set_solver|].
    split.
    + intros x Hx Hx'. destruct (decide (x = o)) as [->|Hne].
      * apply rtc_refl.
      * destruct (H3 x Hx) as (r & Hr & Hreach); [set_solver|].
        eapply rtc_l; [|exact Hreach]. by exists obj.
    + intros x y Hx Hx' Hxy. destruct (decide (x = o)) as [->|Hne].
      * destruct Hxy as (obj' & Hobj' & Hy).
        rewrite Hobj in Hobj'. injection Hobj' as <-. by apply H5.
      * apply (H4 x y); [done|set_solver|done].
Qed.

End WalkerCorrect.

Lemma unvisited_le_size (h : Heap) V : (unvisited h V <= size h)%nat.
Proof.
  unfold unvisited. rewrite <- size_dom. apply subseteq_size. set_solver.
Qed.

(** A call on a heap object, whatever the visited set and with any fuel
    above the number of unvisited objects. *)
Lemma CountReferencedObjects_fuel_enough h fuel o V :
  heap_closed h -> o ∈ dom h -> o ∉ V -> (unvisited h V <= fuel)%nat ->
  exists V',
    CountReferencedObjects_fuel fuel h (Some o) V
    = Done (wrap32 (Z.of_nat (size V') - Z.of_nat (size V)), V')
    /\ CountReferencedObjects h (Some o) V
       = Done (wrap32 (Z.of_nat (size V') - Z.of_nat (size V)), V')
    /\ walked h o V V'.
Proof.
  intros Hc Ho HV Hfuel.
  destruct (CountReferencedObjects_fuel_ok h Hc fuel o V Ho HV Hfuel)
    as (V' & Hrun & Hw).
  pose proof (unvisited_le_size h V) as Hsz.
  destruct (CountReferencedObjects_fuel_ok h Hc (S (size h)) o V Ho HV)
    as (V'' & Hrun' & Hw'); [lia|].
  exists V'. split; [done|]. split; [|done].
  unfold CountReferencedObjects.
  destruct (decide (fuel <= S (size h))%nat) as [Hle|Hgt].
  - by apply (CountReferencedObjects_fuel_mono h fuel).
  - assert (S (size h) <= fuel)%nat as Hle by lia.
    pose proof (CountReferencedObjects_fuel_mono h _ fuel _ _ _ Hle Hrun')
      as Hsame.
    rewrite Hrun in Hsame. injection Hsame as _ ->. exact Hrun'.
Qed.

(** From a fresh visited set the walk ends with exactly the objects
    reachable from the root. *)
Lemma walked_fresh_reachable h root V :
  walked h root ∅ V -> forall x, x ∈ V <-> reachable h root x.
Proof.
  intros (_ & Hroot & _ & Hreach & Hsucc).
  assert (forall a y, rtc (edge h) a y -> a ∈ V -> y ∈ V) as Hgen.
  { intros a y Ha. induction Ha as [|a b c Hab _ IH]; [done|].
    intros HaV. apply IH. apply (Hsucc a b); [done|set_solver|done]. }
  intros x. split.
  - intros Hx. apply Hreach; [done|set_solver].
  - intros Hrx. by apply (Hgen root).
Qed.

Lemma elem_of_concat_ptrs (r : ptr) Props :
  r ∈ concat (map prop_ptrs Props)
  <-> exists P, P ∈ Props /\ r ∈ prop_ptrs P.
Proof.
  induction Props as [|P Props IH]; simpl.
  - split; [by intros ?%elem_of_nil|by intros (? & ?%elem_of_nil & _)].
  - rewrite elem_of_app, IH. split.
    + intros [H|(Q & HQ & H)]; [exists P|exists Q]; split; try done;
        [by left|by right].
    + intros (Q & [->|HQ]%elem_of_cons & H); [by left|right; eauto].
Qed.

Lemma referenced_with_property (r : ptr) i P obj :
  r ∈ referenced_ptrs (with_property i P obj)
  <-> r ∈ referenced_ptrs obj \/ r ∈ prop_ptrs P.
Proof.
  unfold referenced_ptrs. simpl. rewrite !elem_of_concat_ptrs.
  assert (forall Q, Q ∈ Properties obj
            <-> Q ∈ take i (Properties obj) \/ Q ∈ drop i (Properties obj))
    as Hsplit.
  { intros Q. rewrite <- elem_of_app. by rewrite take_drop. }
  split.
  - intros (Q & HQ & H). apply elem_of_app in HQ as [HQ|HQ].
    + left. exists Q. split; [apply Hsplit; by left|done].
    + apply elem_of_cons in HQ as [->|HQ]; [by right|].
      left. exists Q. split; [apply Hsplit; by right|done].
  - intros [(Q & HQ & H)|H].
    + exists Q. split; [|done]. apply Hsplit in HQ as [HQ|HQ];
        apply elem_of_app; [by left|right; by right].
    + exists P. split; [|done]. apply elem_of_app. right. by left.
Qed.

Section SelfReference.

Variables (h : Heap) (o : addr) (obj : UObject).
Variables (i : nat) (P : option FProperty).
Hypothesis Hobj : h !! o = Some obj.
Hypothesis Hself : self_referential o P.

Let h' : Heap := <[o := with_property i P obj]> h.

Lemma edge_with_property a b :
  edge h' a b <-> edge h a b \/ (a = o /\ b = o /\ Some o ∈ prop_ptrs P).
Proof.
  unfold edge, h'. destruct (decide (a = o)) as [->|Hne].
  - rewrite lookup_insert_eq. split.
    + intros (x & [= <-] & Hin).
      apply referenced_with_property in Hin as [Hin|Hin].
      * left. eauto.
      * right. unfold self_referential in Hself.
        rewrite Forall_forall in Hself.
        destruct (Hself _ Hin) as [?|[= ->]]; done.
    + intros [(x & Hx & Hin)|(_ & -> & Hin)].
      * rewrite Hobj in Hx. injection Hx as <-.
        eexists. split; [done|]. apply referenced_with_property. by left.
      * eexists. split; [done|]. apply referenced_with_property. by right.
  - rewrite lookup_insert_ne by done. split; [by left|].
    intros [?|(? & _)]; done.
Qed.

Lemma reachable_with_property root x :
  reachable h' root x <-> reachable h root x.
Proof.
  unfold reachable. split; intros Hr.
  - induction Hr as [|a b c Hab _ IH]; [done|].
    apply edge_with_property in Hab as [Hab|(-> & -> & _)]; [|done].
    by eapply rtc_l.
  - induction Hr as [|a b c Hab _ IH]; [done|].
    eapply rtc_l; [|done]. apply edge_with_property. by left.
Qed.

Lemma dom_with_property : dom h' = dom h.
Proof.
  unfold h'. rewrite dom_insert_L.
  assert (o ∈ dom h) by (apply elem_of_dom; eauto). set_solver.
Qed.

Lemma closed_with_property : heap_closed h -> heap_closed h'.
Proof.
  intros Hc a x Hx. apply Forall_forall. intros [b|] Hin; [|done].
  simpl. rewrite dom_with_property.
  assert (edge h' a b) as He by (exists x; done).
  apply edge_with_property in He as [He|(_ & -> & _)].
  - by apply (closed_edge h Hc a).
  - apply elem_of_dom. eauto.
Qed.

End SelfReference.

(** The call from a root with a fresh visited set. *)
Lemma CountReferencedObjects_fresh (h : Heap) (root : addr) :
  heap_closed h -> root ∈ dom h ->
  exists V : gset addr,
    CountReferencedObjects h (Some root) ∅ = Done (wrap32 (Z.of_nat (size V)), V)
    /\ (forall x, x ∈ V <-> reachable h root x)
    /\ root ∈ V /\ V ⊆ dom h.
Proof.
  intros Hc Hroot.
  destruct (CountReferencedObjects_fuel_enough h (S (size h)) root ∅ Hc Hroot)
    as (V & _ & Hrun & Hw); [set_solver|pose proof (unvisited_le_size h ∅); lia|].
  exists V. rewrite size_empty, Z.sub_0_r in Hrun.
  split; [done|]. split; [by apply walked_fresh_reachable|].
  split; [apply Hw|]. destruct Hw as (_ & _ & Hsub & _). set_solver.
Qed.

(** The diamond: [A] references [B] and [C], [B] references [C], and [C]
    references nothing. *)
Lemma CountReferencedObjects_diamond (h : Heap) (A B C : addr) objA objB objC :
  heap_closed h ->
  h !! A = Some objA -> h !! B = Some objB -> h !! C = Some objC ->
  A <> B -> A <> C -> B <> C ->
  (forall r, Some r ∈ referenced_ptrs objA <-> r = B \/ r = C) ->
  (forall r, Some r ∈ referenced_ptrs objB <-> r = C) ->
  (forall r, Some r ∉ referenced_ptrs objC) ->
  CountReferencedObjects h (Some A) ∅ = Done (3, {[A; B; C]}).
Proof.
  intros Hc HA HB HC HAB HAC HBC HrA HrB HrC.
  assert (A ∈ dom h) as HdA by (apply elem_of_dom; eauto).
  destruct (CountReferencedObjects_fresh h A Hc HdA) as (V & -> & HV & _).
  assert (V = {[A; B; C]}) as ->.
  { apply set_eq. intros x. rewrite HV. split.
    - assert (forall a y, rtc (edge h) a y ->
                a ∈ ({[A; B; C]} : gset addr) -> y ∈ ({[A; B; C]} : gset addr))
        as Hin.
      { intros a y Hay. induction Hay as [|a b c Hab _ IH]; [done|].
        intros Ha. apply IH. destruct Hab as (obj & Hobj & Hb).
        apply elem_of_union in Ha as [[->%elem_of_singleton| ->%elem_of_singleton]%elem_of_union
                                     | ->%elem_of_singleton].
        - rewrite HA in Hobj. injection Hobj as <-.
          apply HrA in Hb as [->| ->]; set_solver.
        - rewrite HB in Hobj. injection Hobj as <-.
          apply HrB in Hb as ->. set_solver.
        - rewrite HC in Hobj. injection Hobj as <-. by apply HrC in Hb. }
      intros Hx. apply (Hin A x Hx). set_solver.
    - assert (edge h A B) as HeB by (exists objA; split; [done|apply HrA; auto]).
      assert (edge h A C) as HeC by (exists objA; split; [done|apply HrA; auto]).
      intros [[->%elem_of_singleton| ->%elem_of_singleton]%elem_of_union
             | ->%elem_of_singleton]%elem_of_union.
      + apply rtc_refl.
      + by apply rtc_once.
      + by apply rtc_once. }
  do 3 f_equal.
  rewrite !size_union, !size_singleton by set_solver. done.
Qed.

(** C1. With a fresh visited set, [CountReferencedObjects] on a root of a
    heap without dangling references returns the number of objects
    reachable from the root through reference-typed fields (values of
    object properties and elements of arrays of object properties): the
    visited set it ends with holds exactly the reachable objects, the root
    among them, and the count is the size of that set (as an [int32]; the
    size itself whenever the heap has fewer than 2^31 objects), so an
    object reachable along several paths is counted once. In particular,
    when the root references [B] and [C], [B] references [C] and [C]
    references nothing, the call returns 3. *)
Theorem CountReferencedObjects_counts_reachable_once (h : Heap) (root : addr) :
  heap_closed h -> root ∈ dom h ->
  (exists V : gset addr,
     CountReferencedObjects h (Some root) ∅
     = Done (wrap32 (Z.of_nat (size V)), V)
     /\ (forall x, x ∈ V <-> reachable h root x)
     /\ root ∈ V
     /\ (Z.of_nat (size h) < 2 ^ 31 ->
         wrap32 (Z.of_nat (size V)) = Z.of_nat (size V)))
  /\ (forall B C objA objB objC,
        h !! root = Some objA -> h !! B = Some objB -> h !! C = Some objC ->
        root <> B -> root <> C -> B <> C ->
        (forall r, Some r ∈ referenced_ptrs objA <-> r = B \/ r = C) ->
        (forall r, Some r ∈ referenced_ptrs objB <-> r = C) ->
        (forall r, Some r ∉ referenced_ptrs objC) ->
        CountReferencedObjects h (Some root) ∅ = Done (3, {[root; B; C]})).
Proof.
  intros Hc Hroot. split.
  - destruct (CountReferencedObjects_fresh h root Hc Hroot)
      as (V & Hrun & Hreach & HrootV & Hsub).
    exists V. split; [done|]. split; [done|]. split; [done|].
    intros Hsize. apply wrap32_small. unfold in_int32.
    assert (size V <= size h)%nat.
    { rewrite <- size_dom. by apply subseteq_size. }
    lia.
  - intros B C objA objB objC. by apply CountReferencedObjects_diamond.
Qed.

(** The diamond of the specification: [A] references [B] and [C], [B]
    references [C]; the call from [A] returns 3. *)
Example CountReferencedObjects_ABC :
  CountReferencedObjects heap_ABC (Some 1%positive) ∅
  = Done (3, {[1%positive; 2%positive; 3%positive]}).
Proof. vm_compute. reflexivity. Qed.

Lemma CountReferencedObjects_counts_reachable_once_witness :
  heap_closed heap_ABC /\ 1%positive ∈ dom heap_ABC
  /\ exists V : gset addr,
       CountReferencedObjects heap_ABC (Some 1%positive) ∅
       = Done (wrap32 (Z.of_nat (size V)), V)
       /\ (forall x, x ∈ V <-> reachable heap_ABC 1%positive x)
       /\ 1%positive ∈ V
       /\ (Z.of_nat (size heap_ABC) < 2 ^ 31
           -> wrap32 (Z.of_nat (size V)) = Z.of_nat (size V)).
Proof.
  assert (heap_closed heap_ABC) as Hc
    by (apply (bool_decide_unpack _); vm_compute; exact I).
  assert (1%positive ∈ dom heap_ABC) as Hd
    by (apply (bool_decide_unpack _); vm_compute; exact I).
  split; [exact Hc|]. split; [exact Hd|].
  exact (proj1 (CountReferencedObjects_counts_reachable_once
                  heap_ABC 1%positive Hc Hd)).
Defined.

(** C4. On a heap without dangling references, which is a finite graph
    whatever its cycles, [CountReferencedObjects] returns: the call made
    with one unit of fuel per heap object and one more gives a result, and
    so does every call whose fuel exceeds the number of objects not yet
    visited, with the same result. A call that passes the guard returns a
    visited set strictly larger than the one it received, which leaves
    strictly fewer unvisited objects to the calls nested in it. Giving an
    object one more property whose references all point back to the object
    itself changes neither the count nor the visited set of a call from
    any root. *)
Theorem CountReferencedObjects_terminates (h : Heap) :
  heap_closed h ->
  (forall Object V, ptr_in_heap h Object ->
     exists st,
       CountReferencedObjects h Object V = Done st
       /\ forall fuel, (unvisited h V < fuel)%nat ->
            CountReferencedObjects_fuel fuel h Object V = Done st)
  /\ (forall o V, o ∈ dom h -> o ∉ V ->
        exists n V',
          CountReferencedObjects h (Some o) V = Done (n, V')
          /\ V ⊂ V' /\ V' ⊆ V ∪ dom h
          /\ (unvisited h V' < unvisited h V)%nat)
  /\ (forall o obj i P root,
        h !! o = Some obj -> self_referential o P -> root ∈ dom h ->
        CountReferencedObjects (<[o := with_property i P obj]> h)
          (Some root) ∅
        = CountReferencedObjects h (Some root) ∅).
Proof.
  intros Hc. split; [|split].
  - intros [o|] V Hvalid.
    + destruct (decide (o ∈ V)) as [Hin|Hnin].
      * exists (0, V). unfold CountReferencedObjects. simpl.
        rewrite decide_True by done. split; [done|].
        intros [|fuel] Hfuel; [lia|]. simpl. by rewrite decide_True.
      * destruct (CountReferencedObjects_fuel_enough h (S (size h)) o V
                    Hc Hvalid Hnin) as (V' & _ & Hrun & _).
        { pose proof (unvisited_le_size h V). lia. }
        eexists. split; [exact Hrun|]. intros fuel Hfuel.
        destruct (CountReferencedObjects_fuel_enough h fuel o V
                    Hc Hvalid Hnin) as (V'' & Hrun1 & Hrun2 & _); [lia|].
        rewrite Hrun1. rewrite Hrun in Hrun2. by symmetry.
    + exists (0, V). split; [done|]. intros [|fuel] Hfuel; [lia|done].
  - intros o V Ho HV.
    destruct (CountReferencedObjects_fuel_enough h (S (size h)) o V Hc Ho HV)
      as (V' & _ & Hrun & HVV' & HoV' & Hsub & _).
    { pose proof (unvisited_le_size h V). lia. }
    eexists _, V'. split; [exact Hrun|].
    assert (V ⊂ V') as Hstrict by set_solver.
    split; [done|]. split; [done|].
    unfold unvisited. apply subset_size. set_solver.
  - intros o obj i P root Hobj Hself Hroot.
    pose proof (closed_with_property h o obj i P Hobj Hself Hc) as Hc'.
    assert (root ∈ dom (<[o := with_property i P obj]> h)) as Hroot'
      by (by rewrite (dom_with_property h o obj i P Hobj)).
    destruct (CountReferencedObjects_fresh _ root Hc' Hroot')
      as (V' & -> & HV' & _).
    destruct (CountReferencedObjects_fresh h root Hc Hroot)
      as (V & -> & HV & _).
    assert (V' = V) as ->; [|done].
    apply set_eq. intros x.
    rewrite HV', HV. by apply reachable_with_property.
Qed.

Example CountReferencedObjects_ABC_self :
  CountReferencedObjects heap_ABC_self (Some 1%positive) ∅
  = CountReferencedObjects heap_ABC (Some 1%positive) ∅.
Proof. vm_compute. reflexivity. Qed.

Lemma CountReferencedObjects_terminates_witness :
  heap_closed heap_ABC
  /\ (forall Object V, ptr_in_heap heap_ABC Object ->
        exists st,
          CountReferencedObjects heap_ABC Object V = Done st
          /\ forall fuel, (unvisited heap_ABC V < fuel)%nat ->
               CountReferencedObjects_fuel fuel heap_ABC Object V = Done st)
  /\ (forall o V, o ∈ dom heap_ABC -> o ∉ V ->
        exists n V',
          CountReferencedObjects heap_ABC (Some o) V = Done (n, V')
          /\ V ⊂ V' /\ V' ⊆ V ∪ dom heap_ABC
          /\ (unvisited heap_ABC V' < unvisited heap_ABC V)%nat)
  /\ (forall o obj i P root,
        heap_ABC !! o = Some obj -> self_referential o P ->
        root ∈ dom heap_ABC ->
        CountReferencedObjects (<[o := with_property i P obj]> heap_ABC)
          (Some root) ∅
        = CountReferencedObjects heap_ABC (Some root) ∅).
Proof.
  assert (heap_closed heap_ABC) as Hc
    by (apply (bool_decide_unpack _); vm_compute; exact I).
  split; [exact Hc|].
  exact (CountReferencedObjects_terminates heap_ABC Hc).
Defined.

(** ** The size estimator *)

Lemma add_property_wrap a P :
  add_property (wrap64 a) P = wrap64 (a + added_bytes P).
Proof.
  destruct P as [[es c|sz|es|es r|es]|]; simpl;
    rewrite ?wrap64_add_l, ?Z.add_0_r; done.
Qed.

Lemma fold_add_property Props a :
  fold_left add_property Props (wrap64 a)
  = wrap64 (a + sum_bytes added_bytes Props).
Proof.
  revert a. induction Props as [|P Props IH]; intros a; simpl.
  - by rewrite Z.add_0_r.
  - rewrite add_property_wrap, IH. f_equal. lia.
Qed.

Lemma added_bytes_fit Props :
  products_fit Props ->
  sum_bytes added_bytes Props = sum_bytes property_bytes Props.
Proof.
  induction 1 as [|P Props HP _ IH]; simpl; [done|].
  rewrite IH. f_equal.
  destruct P as [[es c|sz|es|es r|es]|]; simpl; try done.
  by apply wrap32_small.
Qed.

(** The estimate in full, with the wrap-around of the source. *)
Lemma CalculateMemoryUsage_wrapped sizeof_UObject (h : Heap) p o :
  h !! p = Some o ->
  CalculateMemoryUsage sizeof_UObject h (Some p)
  = Done (wrap64 (sizeof_UObject + sum_bytes added_bytes (Properties o))).
Proof.
  intros Ho. unfold CalculateMemoryUsage. rewrite Ho.
  by rewrite fold_add_property.
Qed.

(** C2, as the code has it. A null object yields 0. For an object of the
    heap, when every array product fits [int32] and the total fits
    [int64], [CalculateMemoryUsage] returns the base overhead plus, for
    each reflected property: the element count times the element size for
    an array property of any inner kind, arrays of object references
    included; the allocated size for a string property; nothing for a name
    property, for a single object reference and for a null property entry;
    the element size for every other property. *)
Theorem CalculateMemoryUsage_shallow_estimate sizeof_UObject (h : Heap) :
  CalculateMemoryUsage sizeof_UObject h None = Done 0
  /\ (forall p o,
        h !! p = Some o ->
        products_fit (Properties o) ->
        in_int64 (sizeof_UObject + sum_bytes property_bytes (Properties o)) ->
        CalculateMemoryUsage sizeof_UObject h (Some p)
        = Done (sizeof_UObject + sum_bytes property_bytes (Properties o)))
  /\ (forall es els,
        property_bytes (Some (FArrayProperty es (ObjectElements els)))
        = Z.of_nat (length els) * es)
  /\ (forall es, property_bytes (Some (FNameProperty es)) = 0).
Proof.
  split; [done|]. split; [|done].
  intros p o Ho Hfit Hrange.
  rewrite (CalculateMemoryUsage_wrapped _ _ _ _ Ho).
  rewrite (added_bytes_fit _ Hfit). by rewrite wrap64_small.
Qed.

Lemma CalculateMemoryUsage_shallow_estimate_witness :
  heap_ABC !! 1%positive = Some object_A
  /\ products_fit (Properties object_A)
  /\ in_int64 (40 + sum_bytes property_bytes (Properties object_A))
  /\ CalculateMemoryUsage 40 heap_ABC (Some 1%positive)
     = Done (40 + sum_bytes property_bytes (Properties object_A)).
Proof.
  assert (heap_ABC !! 1%positive = Some object_A) as Ho by reflexivity.
  assert (products_fit (Properties object_A)) as Hfit
    by (repeat constructor; simpl; unfold in_int32; lia).
  assert (in_int64 (40 + sum_bytes property_bytes (Properties object_A)))
    as Hrange by (simpl; unfold in_int64; lia).
  split; [exact Ho|]. split; [exact Hfit|]. split; [exact Hrange|].
  exact (proj1 (proj2 (CalculateMemoryUsage_shallow_estimate 40 heap_ABC))
           1%positive object_A Ho Hfit Hrange).
Defined.

(** C2 as the specification states it fails on an array of object
    references: the code adds the array's own storage, two pointers of
    eight bytes here, where the statement adds nothing. *)
Lemma CalculateMemoryUsage_counts_reference_arrays :
  CalculateMemoryUsage 40 heap_ABC (Some 1%positive) = Done 60
  /\ stated_memory_usage 40 heap_ABC (Some 1%positive) = Done 44
  /\ CalculateMemoryUsage 40 heap_ABC (Some 1%positive)
     <> stated_memory_usage 40 heap_ABC (Some 1%positive).
Proof. split; [|split]; [reflexivity|reflexivity|discriminate]. Qed.

(** ** Removal by swap *)

Lemma RemoveAtSwap_middle {A : Type} (pre : list A) (w : A) (suf : list A) :
  exists suf',
    RemoveAtSwap (length pre) (pre ++ w :: suf) = pre ++ suf' /\ suf' ≡ₚ suf.
Proof.
  unfold RemoveAtSwap.
  rewrite decide_True by (rewrite length_app; simpl; lia).
  destruct (decide (suf = [])) as [->|Hne].
  - exists []. split; [|done].
    rewrite last_snoc, length_app. simpl.
    rewrite decide_True by lia.
    replace (length pre + 1 - 1)%nat with (length pre) by lia.
    by rewrite take_app_length, app_nil_r.
  - destruct (last suf) as [x|] eqn:Hlast.
    2:{ apply last_None in Hlast. done. }
    apply last_Some in Hlast as [suf0 ->].
    exists (x :: suf0). split; [|by rewrite Permutation_cons_append].
    replace (pre ++ w :: suf0 ++ [x]) with ((pre ++ w :: suf0) ++ [x])
      by (by rewrite <- app_assoc).
    rewrite last_snoc.
    rewrite decide_False by (rewrite !length_app; simpl; lia).
    replace (length ((pre ++ w :: suf0) ++ [x]) - 1)%nat
      with (length (pre ++ w :: suf0)) by (rewrite !length_app; simpl; lia).
    rewrite take_app_length.
    replace (length pre) with (length pre + 0)%nat at 1 by lia.
    by rewrite insert_app_r.
Qed.

Lemma RemoveAtSwap_lookup {A : Type} (l : list A) (Index : nat) (w : A) :
  l !! Index = Some w ->
  l ≡ₚ w :: RemoveAtSwap Index l
  /\ S (length (RemoveAtSwap Index l)) = length l
  /\ take Index (RemoveAtSwap Index l) = take Index l.
Proof.
  intros Hw. pose proof (take_drop_middle l Index w Hw) as Hsplit.
  assert (length (take Index l) = Index) as Hlen
    by (apply length_take_le; apply lookup_lt_Some in Hw; lia).
  destruct (RemoveAtSwap_middle (take Index l) w (drop (S Index) l))
    as (suf' & Heq & Hperm).
  rewrite Hlen, Hsplit in Heq. rewrite Heq.
  split; [|split].
  - rewrite <- Hsplit at 1. rewrite Hperm. by rewrite Permutation_middle.
  - rewrite <- Hsplit at 2. rewrite !length_app. simpl.
    rewrite (Permutation_length Hperm). lia.
  - rewrite <- Hlen at 1. by rewrite take_app_length.
Qed.

(** ** Invalid input *)

(** C9. [RegisterObject] and [UnregisterObject] called with a null object,
    and [LogEvent] called with an empty event name, return the state they
    were given together with one warning line and nothing else; they have
    no failing outcome. [LogEvent] with an empty name leaves
    [GetEventCount] as it was. *)
Theorem invalid_input_warns_and_changes_nothing :
  (forall h t,
     RegisterObject h None t = (t, [RegisterObject_warning])
     /\ UnregisterObject h None t = (t, [UnregisterObject_warning]))
  /\ (forall Printf_3f DateTime_ToString env Ctx l,
        LogEvent Printf_3f DateTime_ToString env EmptyString Ctx l
        = (l, [LogEvent_warning])
        /\ GetEventCount
             (fst (LogEvent Printf_3f DateTime_ToString env EmptyString Ctx l))
           = GetEventCount l)
  /\ Verbosity RegisterObject_warning = Warning
  /\ Verbosity UnregisterObject_warning = Warning
  /\ Verbosity LogEvent_warning = Warning.
Proof. repeat split. Qed.

(** ** Export *)

(** C8. On an empty log [ExportLogToCSV] returns false, emits its warning
    and leaves the files as they were, the write not being attempted. On a
    log with entries it makes the one write of the CSV content to the
    given path, returns what the write returned (false when it failed,
    true when it succeeded) and leaves the files as the write left them;
    so it returns true exactly when the log has entries and the write
    succeeds. *)
Theorem ExportLogToCSV_result
    (Printf_3f : float -> string) (DateTime_ToString : FDateTime -> string)
    (SaveStringToFile : string -> string -> FileSystem -> bool * FileSystem)
    (FilePath : string) (l : UGameplayEventLogger) (fs : FileSystem) :
  let export :=
    ExportLogToCSV Printf_3f DateTime_ToString SaveStringToFile FilePath l fs in
  let written :=
    SaveStringToFile (csv_content Printf_3f DateTime_ToString (EventLog l))
      FilePath fs in
  (EventLog l = [] -> export = (false, fs, [Export_warning]))
  /\ (EventLog l <> [] ->
      export.1.1 = written.1 /\ export.1.2 = written.2
      /\ (written.1 = false ->
          exists line, export.2 = [line] /\ Verbosity line = Error))
  /\ (export.1.1 = true <-> EventLog l <> [] /\ written.1 = true).
Proof.
  simpl. unfold ExportLogToCSV.
  destruct (EventLog l) as [|e log] eqn:Hlog; simpl.
  - split; [done|]. split; [done|]. split; [done|]. by intros [? _].
  - destruct (SaveStringToFile _ FilePath fs) as [bSaved fs'] eqn:Hsave.
    simpl. split; [done|]. split.
    + intros _. split; [done|]. split; [done|]. intros ->. eauto.
    + split; [by intros ->|by intros [_ ?]].
Qed.

(** ** Unregistering *)

Lemma set_tracked_same t : set_tracked (TrackedObjects t) t = t.
Proof. by destruct t. Qed.

(** The backward scan stops at the last handle, below [k], that resolves
    to the object, and removes it; with no such handle it changes
    nothing. *)
Lemma unregister_scan_spec h (Obj : ptr) k (tr : list TWeakObjectPtr) :
  (k <= length tr)%nat ->
  ((forall j w, (j < k)%nat -> tr !! j = Some w -> Get h w <> Obj)
   /\ unregister_scan h Obj k tr = tr)
  \/ (exists Index w,
        (Index < k)%nat /\ tr !! Index = Some w /\ Get h w = Obj
        /\ (forall j w', (Index < j < k)%nat -> tr !! j = Some w' ->
              Get h w' <> Obj)
        /\ unregister_scan h Obj k tr = RemoveAtSwap Index tr).
Proof.
  induction k as [|k IH]; intros Hk.
  - left. split; [intros j w Hj; lia|done].
  - simpl. destruct (tr !! k) as [w|] eqn:Hw.
    2:{ apply lookup_ge_None in Hw. lia. }
    destruct (decide (Get h w = Obj)) as [Heq|Hne].
    + right. exists k, w. repeat split; try done; [lia|].
      intros j w' Hj. lia.
    + destruct IH as [[Hnone ->]|(Index & w0 & Hlt & Hw0 & Heq & Hlast & ->)];
        [lia| |].
      * left. split; [|done]. intros j w' Hj Hw'.
        destruct (decide (j = k)) as [->|Hjk]; [congruence|].
        apply (Hnone j); [lia|done].
      * right. exists Index, w0. repeat split; try done; [lia|].
        intros j w' Hj Hw'.
        destruct (decide (j = k)) as [->|Hjk]; [congruence|].
        apply (Hlast j); [lia|done].
Qed.

(** C10. [UnregisterObject] with a non-null object emits nothing and
    changes only [TrackedObjects]. When no handle resolves to the object
    the tracker is unchanged. Otherwise exactly one handle is removed: the
    one at the greatest index whose referent is the object, by
    [RemoveAtSwap]; the set is one shorter, the handles before that index
    keep their place, and the handles are, up to the order, the removed
    one followed by those that remain, so other handles that resolve to
    the same object stay. *)
Theorem UnregisterObject_removes_at_most_one (h : Heap) (p : addr)
    (t : UMemoryUsageTracker) :
  let t' := (UnregisterObject h (Some p) t).1 in
  (UnregisterObject h (Some p) t).2 = []
  /\ CachedMemoryInfo t' = CachedMemoryInfo t
  /\ TimeAccumulator t' = TimeAccumulator t
  /\ SampleInterval t' = SampleInterval t
  /\ bComponentTickEnabled t' = bComponentTickEnabled t
  /\ ((forall w, w ∈ TrackedObjects t -> Get h w <> Some p) -> t' = t)
  /\ ((exists w, w ∈ TrackedObjects t /\ Get h w = Some p) ->
      exists Index w,
        TrackedObjects t !! Index = Some w /\ Get h w = Some p
        /\ (forall j w', (Index < j)%nat -> TrackedObjects t !! j = Some w' ->
              Get h w' <> Some p)
        /\ TrackedObjects t' = RemoveAtSwap Index (TrackedObjects t)
        /\ S (length (TrackedObjects t')) = length (TrackedObjects t)
        /\ take Index (TrackedObjects t') = take Index (TrackedObjects t)
        /\ TrackedObjects t ≡ₚ w :: TrackedObjects t').
Proof.
  simpl. do 5 (split; [done|]).
  destruct (unregister_scan_spec h (Some p) (length (TrackedObjects t))
              (TrackedObjects t))
    as [[Hnone Hsame]|(Index & w & Hlt & Hw & Heq & Hlast & Hscan)]; [lia| |].
  - split.
    + intros _. rewrite Hsame. apply set_tracked_same.
    + intros (w & Hw & Heq). exfalso.
      apply list_elem_of_lookup in Hw as [j Hj].
      apply (Hnone j w); [by apply lookup_lt_Some in Hj|done|done].
  - split.
    + intros Hnone. exfalso. apply (Hnone w); [|done].
      apply list_elem_of_lookup. eauto.
    + intros _. exists Index, w. rewrite Hscan.
      destruct (RemoveAtSwap_lookup _ _ _ Hw) as (Hperm & Hlen & Htake).
      repeat split; try done.
      intros j w' Hj Hw'. apply (Hlast j); [|done].
      apply lookup_lt_Some in Hw'. lia.
Qed.

(** Two handles resolve to [B]; the one nearer the end goes, and the last
    handle takes its place. *)
Example UnregisterObject_duplicate_handles :
  TrackedObjects
    (UnregisterObject heap_ABC (Some 2%positive)
       (set_tracked [Some 2; Some 1; Some 2; Some 3]%positive NewTracker)).1
  = [Some 2; Some 1; Some 3]%positive.
Proof. reflexivity. Qed.

Lemma UnregisterObject_removes_at_most_one_witness :
  (exists w,
     w ∈ TrackedObjects
           (set_tracked [Some 2; Some 1; Some 2; Some 3]%positive NewTracker)
     /\ Get heap_ABC w = Some 2%positive)
  /\ exists Index w,
       [Some 2; Some 1; Some 2; Some 3]%positive !! Index = Some w
       /\ Get heap_ABC w = Some 2%positive
       /\ TrackedObjects
            (UnregisterObject heap_ABC (Some 2%positive)
               (set_tracked [Some 2; Some 1; Some 2; Some 3]%positive
                  NewTracker)).1
          = RemoveAtSwap Index [Some 2; Some 1; Some 2; Some 3]%positive
       /\ S (length
               (TrackedObjects
                  (UnregisterObject heap_ABC (Some 2%positive)
                     (set_tracked [Some 2; Some 1; Some 2; Some 3]%positive
                        NewTracker)).1))
          = 4%nat.
Proof.
  assert (exists w,
            w ∈ TrackedObjects
                  (set_tracked [Some 2; Some 1; Some 2; Some 3]%positive
                     NewTracker)
            /\ Get heap_ABC w = Some 2%positive) as Hex.
  { exists (Some 2%positive). split; [by left|reflexivity]. }
  split; [exact Hex|].
  destruct (proj2 (proj2 (proj2 (proj2 (proj2 (proj2
              (UnregisterObject_removes_at_most_one heap_ABC 2%positive
                 (set_tracked [Some 2; Some 1; Some 2; Some 3]%positive
                    NewTracker))))))) Hex)
    as (Index & w & Hw & Hg & _ & Hrem & Hlen & _).
  exists Index, w. split; [exact Hw|]. split; [exact Hg|].
  split; [exact Hrem|exact Hlen].
Defined.

(** ** The sampling pass *)

Section SamplingPass.

Variable sizeof_UObject : Z.
Variable h : Heap.
Hypothesis Hclosed : heap_closed h.

Lemma sample_at_live pre w suf cache :
  live h w ->
  exists info,
    sample_at sizeof_UObject h (length pre) (pre ++ w :: suf, cache)
    = Done (pre ++ w :: suf, cache ++ [info])
    /\ record_of sizeof_UObject h w info.
Proof.
  unfold live. intros Hlive. unfold sample_at.
  rewrite list_lookup_middle by done. unfold Get. rewrite Hlive.
  destruct w as [p|]; [|done]. simpl in Hlive.
  destruct (h !! p) as [o|] eqn:Ho; [|done]. rewrite Hlive.
  assert (p ∈ dom h) as Hp by (apply elem_of_dom; eauto).
  destruct (CountReferencedObjects_fresh h p Hclosed Hp) as (V & Hrun & _).
  rewrite Hrun. unfold CalculateMemoryUsage. rewrite Ho. simpl.
  eexists. split; [reflexivity|].
  exists o, V. simpl. rewrite Ho. repeat split; done.
Qed.

Lemma sample_at_dead pre w suf cache :
  ~ live h w ->
  sample_at sizeof_UObject h (length pre) (pre ++ w :: suf, cache)
  = Done (RemoveAtSwap (length pre) (pre ++ w :: suf), cache).
Proof.
  unfold live. intros Hdead%not_true_is_false. unfold sample_at.
  rewrite list_lookup_middle by done. by rewrite Hdead.
Qed.

Lemma sampling_loop_S k st :
  sampling_loop sizeof_UObject h (S k) st
  = (st' ← sample_at sizeof_UObject h k st;
     sampling_loop sizeof_UObject h k st').
Proof. done. Qed.

(** The loop entered below the already scanned suffix [suf]: the handles
    of [pre] that are live stay, with a record each in scan order, and the
    rest go. *)
Lemma sampling_loop_spec pre :
  forall suf cache,
  exists tr' new,
    sampling_loop sizeof_UObject h (length pre) (pre ++ suf, cache)
    = Done (tr', cache ++ new)
    /\ tr' ≡ₚ filter (live h) pre ++ suf
    /\ Forall2 (record_of sizeof_UObject h)
         (reverse (filter (live h) pre)) new.
Proof.
  induction pre as [|w pre IH] using rev_ind; intros suf cache.
  - exists suf, []. simpl. rewrite app_nil_r.
    split; [done|]. split; [done|]. constructor.
  - rewrite length_app, Nat.add_1_r, <- app_assoc, sampling_loop_S.
    change ([w] ++ suf) with (w :: suf).
    rewrite filter_app. destruct (decide (live h w)) as [Hlive|Hdead].
    + destruct (sample_at_live pre w suf cache Hlive) as (info & -> & Hrec).
      simpl. destruct (IH (w :: suf) (cache ++ [info]))
        as (tr' & new & -> & Hperm & Hrecs).
      exists tr', (info :: new). rewrite <- app_assoc. split; [done|].
      rewrite filter_cons_True, filter_nil by done. split.
      * by rewrite Hperm, <- app_assoc.
      * rewrite reverse_snoc. by constructor.
    + rewrite (sample_at_dead pre w suf cache Hdead). simpl.
      destruct (RemoveAtSwap_middle pre w suf) as (suf' & -> & Hsuf).
      destruct (IH suf' cache) as (tr' & new & -> & Hperm & Hrecs).
      exists tr', new. split; [done|].
      rewrite filter_cons_False, filter_nil, app_nil_r by done.
      split; [by rewrite Hperm, Hsuf|done].
Qed.

Lemma sampling_pass_spec (tr : list TWeakObjectPtr) :
  exists tr' cache,
    sampling_pass sizeof_UObject h tr = Done (tr', cache)
    /\ tr' ≡ₚ filter (live h) tr
    /\ Forall2 (record_of sizeof_UObject h) (reverse (filter (live h) tr)) cache.
Proof.
  unfold sampling_pass.
  destruct (sampling_loop_spec tr [] []) as (tr' & new & Hrun & Hperm & Hrecs).
  rewrite app_nil_r in Hrun, Hperm. exists tr', new. by rewrite Hrun.
Qed.

(** What a tick does, by the guard and by the accumulator. *)
Lemma TickComponent_cases DeltaTime (t : UMemoryUsageTracker) :
  let acc := float_add (TimeAccumulator t) DeltaTime in
  ((float_le (SampleInterval t) float_zero = true \/ TrackedObjects t = []) ->
   TickComponent sizeof_UObject h DeltaTime t = Done t)
  /\ (float_le (SampleInterval t) float_zero = false ->
      TrackedObjects t <> [] ->
      (float_ge acc (SampleInterval t) = false ->
       TickComponent sizeof_UObject h DeltaTime t
       = Done {| TimeAccumulator := acc;
                 SampleInterval := SampleInterval t;
                 TrackedObjects := TrackedObjects t;
                 CachedMemoryInfo := CachedMemoryInfo t;
                 bComponentTickEnabled := bComponentTickEnabled t |})
      /\ (float_ge acc (SampleInterval t) = true ->
          exists tr' cache,
            sampling_pass sizeof_UObject h (TrackedObjects t) = Done (tr', cache)
            /\ tr' ≡ₚ filter (live h) (TrackedObjects t)
            /\ Forall2 (record_of sizeof_UObject h)
                 (reverse (filter (live h) (TrackedObjects t))) cache
            /\ TickComponent sizeof_UObject h DeltaTime t
               = Done {| TimeAccumulator := float_zero;
                         SampleInterval := SampleInterval t;
                         TrackedObjects := tr';
                         CachedMemoryInfo := cache;
                         bComponentTickEnabled := bComponentTickEnabled t |})).
Proof.
  simpl. unfold TickComponent. split.
  - intros [-> | ->]; [done|]. simpl. by rewrite orb_true_r.
  - intros -> Hne. simpl.
    rewrite bool_decide_eq_false_2 by (by destruct (TrackedObjects t)).
    split; [by intros ->|]. intros ->.
    destruct (sampling_pass_spec (TrackedObjects t))
      as (tr' & cache & Hrun & Hperm & Hrecs).
    exists tr', cache. rewrite Hrun. done.
Qed.

End SamplingPass.

(** ** Live referents *)

Lemma Get_Some h w p : Get h w = Some p <-> w = Some p /\ live h w.
Proof.
  unfold Get, live. destruct (IsValid h w); split.
  - by intros ->.
  - by intros [-> _].
  - done.
  - by intros [_ ?].
Qed.

Lemma Get_None h w : Get h w = None <-> ~ live h w.
Proof.
  unfold Get, live. destruct (IsValid h w) eqn:Hv; split; try done.
  intros ->. simpl in Hv. done.
Qed.

Lemma live_referents_filter h tr :
  live_referents h (filter (live h) tr) = live_referents h tr.
Proof.
  unfold live_referents. induction tr as [|w tr IH]; [done|].
  destruct (decide (live h w)) as [Hl|Hd].
  - rewrite filter_cons_True by done. simpl.
    destruct (Get h w); [f_equal|]; exact IH.
  - rewrite filter_cons_False by done. simpl.
    apply Get_None in Hd. rewrite Hd. exact IH.
Qed.

Lemma live_referents_sublist h h' tr :
  (forall w, live h' w -> live h w) ->
  live_referents h' tr `sublist_of` live_referents h tr.
Proof.
  intros Hless. unfold live_referents.
  induction tr as [|w tr IH]; simpl; [constructor|].
  destruct (Get h' w) as [p|] eqn:Hg'.
  - apply Get_Some in Hg' as [-> Hl'].
    assert (Get h (Some p) = Some p) as -> by (apply Get_Some; auto).
    by constructor.
  - destruct (Get h w); [by constructor|done].
Qed.

Lemma already_tracked_spec h Obj tr :
  already_tracked h Obj tr = true <-> exists w, w ∈ tr /\ Get h w = Obj.
Proof.
  induction tr as [|w tr IH]; simpl.
  - split; [done|]. by intros (w & ?%elem_of_nil & _).
  - destruct (decide (Get h w = Obj)) as [Heq|Hne].
    + split; [|done]. intros _. exists w. split; [by left|done].
    + rewrite IH. split.
      * intros (w' & Hw' & Heq). exists w'. split; [by right|done].
      * intros (w' & [->|Hw']%elem_of_cons & Heq); [done|eauto].
Qed.

Lemma RegisterObject_keeps h Obj t :
  no_duplicates h t -> no_duplicates h (RegisterObject h Obj t).1.
Proof.
  unfold no_duplicates, RegisterObject. intros Hnd.
  destruct Obj as [p|]; [|done].
  destruct (already_tracked h (Some p) (TrackedObjects t)) eqn:Ha; [done|].
  simpl. unfold live_referents. rewrite omap_app. simpl.
  destruct (Get h (Some p)) as [q|] eqn:Hg; [|by rewrite app_nil_r].
  apply Get_Some in Hg as [[= <-] Hl].
  apply NoDup_app. split; [done|]. split; [|apply NoDup_singleton].
  intros x Hx ->%list_elem_of_singleton.
  apply list_elem_of_omap in Hx as (w & Hw & Hg).
  assert (already_tracked h (Some p) (TrackedObjects t) = true) as Ht
    by (apply already_tracked_spec; eauto).
  congruence.
Qed.

Lemma UnregisterObject_keeps h Obj t :
  no_duplicates h t -> no_duplicates h (UnregisterObject h Obj t).1.
Proof.
  unfold no_duplicates, UnregisterObject. intros Hnd.
  destruct Obj as [p|]; [|done]. simpl.
  destruct (unregister_scan_spec h (Some p) (length (TrackedObjects t))
              (TrackedObjects t))
    as [[_ ->]|(Index & w & _ & Hw & _ & _ & ->)]; [lia|done|].
  destruct (RemoveAtSwap_lookup _ _ _ Hw) as (Hperm & _).
  unfold live_referents in *. rewrite Hperm in Hnd. simpl in Hnd.
  destruct (Get h w); [by apply NoDup_cons in Hnd as [_ ?]|done].
Qed.

Lemma TickComponent_keeps sizeof_UObject h DeltaTime t :
  heap_closed h -> no_duplicates h t ->
  exists t',
    TickComponent sizeof_UObject h DeltaTime t = Done t'
    /\ no_duplicates h t'.
Proof.
  intros Hc Hnd.
  destruct (TickComponent_cases sizeof_UObject h Hc DeltaTime t)
    as [Hidle Hrun].
  destruct (float_le (SampleInterval t) float_zero) eqn:Hint;
    [rewrite Hidle by auto; eauto|].
  destruct (decide (TrackedObjects t = [])) as [Hnil|Hne];
    [rewrite Hidle by auto; eauto|].
  destruct (Hrun eq_refl Hne) as [Hwait Hpass].
  destruct (float_ge (float_add (TimeAccumulator t) DeltaTime)
              (SampleInterval t)) eqn:Hge.
  - destruct (Hpass eq_refl) as (tr' & cache & _ & Hperm & _ & ->).
    eexists. split; [done|]. unfold no_duplicates in *. simpl.
    unfold live_referents at 1. rewrite Hperm.
    fold (live_referents h (filter (live h) (TrackedObjects t))).
    by rewrite live_referents_filter.
  - rewrite (Hwait eq_refl). eauto.
Qed.

(** C7. The tracked handles never hold two that resolve to the same live
    object. The tracker starts that way, and [RegisterObject],
    [UnregisterObject], [TickComponent], [StartTracking] and
    [StopTracking] keep it so, as does any change of the heap that only
    ends the life of objects. [RegisterObject] with a non-null object
    leaves the tracker as it is when a handle already resolves to that
    object and appends one handle otherwise; registering a live object a
    second time changes nothing, so that registering it twice on a new
    tracker leaves one handle. *)
Theorem TrackedObjects_no_duplicates :
  (forall h, no_duplicates h NewTracker)
  /\ (forall h Obj t,
        no_duplicates h t ->
        no_duplicates h (RegisterObject h Obj t).1
        /\ no_duplicates h (UnregisterObject h Obj t).1)
  /\ (forall sizeof_UObject h DeltaTime t,
        heap_closed h -> no_duplicates h t ->
        exists t',
          TickComponent sizeof_UObject h DeltaTime t = Done t'
          /\ no_duplicates h t')
  /\ (forall h x t,
        no_duplicates h t ->
        no_duplicates h (StartTracking x t) /\ no_duplicates h (StopTracking t))
  /\ (forall h h' t,
        (forall w, live h' w -> live h w) ->
        no_duplicates h t -> no_duplicates h' t)
  /\ (forall h p t,
        ((exists w, w ∈ TrackedObjects t /\ Get h w = Some p) ->
         (RegisterObject h (Some p) t).1 = t)
        /\ ((forall w, w ∈ TrackedObjects t -> Get h w <> Some p) ->
            TrackedObjects (RegisterObject h (Some p) t).1
            = TrackedObjects t ++ [Some p]))
  /\ (forall h p t,
        live h (Some p) ->
        (RegisterObject h (Some p) (RegisterObject h (Some p) t).1).1
        = (RegisterObject h (Some p) t).1)
  /\ (forall h p,
        live h (Some p) ->
        length (TrackedObjects
                  (RegisterObject h (Some p)
                     (RegisterObject h (Some p) NewTracker).1).1) = 1%nat).
Proof.
  split; [intros h; apply NoDup_nil_2|].
  split; [intros h Obj t Hnd; split;
          [by apply RegisterObject_keeps|by apply UnregisterObject_keeps]|].
  split; [intros; by apply TickComponent_keeps|].
  split; [intros h x t Hnd; by split|].
  split.
  { intros h h' t Hless Hnd. unfold no_duplicates in *.
    exact (sublist_NoDup _ _ Hnd (live_referents_sublist h h' _ Hless)). }
  assert (forall h p t,
            ((exists w, w ∈ TrackedObjects t /\ Get h w = Some p) ->
             (RegisterObject h (Some p) t).1 = t)
            /\ ((forall w, w ∈ TrackedObjects t -> Get h w <> Some p) ->
                TrackedObjects (RegisterObject h (Some p) t).1
                = TrackedObjects t ++ [Some p])) as Hscan.
  { intros h p t. unfold RegisterObject. split.
    - intros Hex. apply already_tracked_spec in Hex. by rewrite Hex.
    - intros Hnone.
      destruct (already_tracked h (Some p) (TrackedObjects t)) eqn:Ha; [|done].
      apply already_tracked_spec in Ha as (w & Hw & Hg).
      by destruct (Hnone w Hw). }
  assert (forall h p t,
            live h (Some p) ->
            (RegisterObject h (Some p) (RegisterObject h (Some p) t).1).1
            = (RegisterObject h (Some p) t).1) as Htwice.
  { intros h p t Hl. apply Hscan.
    assert (Get h (Some p) = Some p) as Hg by (by apply Get_Some).
    unfold RegisterObject.
    destruct (already_tracked h (Some p) (TrackedObjects t)) eqn:Ha.
    - by apply already_tracked_spec in Ha.
    - exists (Some p). split; [|done]. simpl. apply elem_of_app. right.
      by apply list_elem_of_singleton. }
  split; [exact Hscan|]. split; [exact Htwice|].
  intros h p Hl. by rewrite Htwice.
Qed.

Lemma TrackedObjects_no_duplicates_witness :
  live heap_ABC (Some 2%positive)
  /\ length (TrackedObjects
               (RegisterObject heap_ABC (Some 2%positive)
                  (RegisterObject heap_ABC (Some 2%positive) NewTracker).1).1)
     = 1%nat.
Proof.
  assert (live heap_ABC (Some 2%positive)) as Hl by reflexivity.
  split; [exact Hl|].
  exact (proj2 (proj2 (proj2 (proj2 (proj2 (proj2 (proj2
           TrackedObjects_no_duplicates)))))) heap_ABC 2%positive Hl).
Defined.

(** ** Destroyed referents *)

(** C6. On a heap without dangling references a sampling pass returns.
    The handles it leaves are, up to the order, the tracked handles whose
    referent is live, and the cache it builds holds one record for each
    of them, in the order of the scan, with the name, the estimate and
    the count of that referent. So a handle whose referent was destroyed
    is gone from the tracked set and no record is about it, every live
    handle stays and has its record, and every record of the snapshot is
    about a live referent. A tick that reaches the interval installs
    exactly this tracked set and this cache. *)
Theorem sampling_pass_drops_destroyed (sizeof_UObject : Z) (h : Heap)
    (tr : list TWeakObjectPtr) :
  heap_closed h ->
  exists tr' cache,
    sampling_pass sizeof_UObject h tr = Done (tr', cache)
    /\ tr' ≡ₚ filter (live h) tr
    /\ Forall2 (record_of sizeof_UObject h) (reverse (filter (live h) tr)) cache
    /\ (forall w, w ∈ tr -> ~ live h w ->
          (w ∉ tr') /\ (forall info, info ∈ cache -> TrackedObject info <> w))
    /\ (forall w, w ∈ tr -> live h w ->
          w ∈ tr'
          /\ exists info, info ∈ cache /\ record_of sizeof_UObject h w info)
    /\ (forall info, info ∈ cache -> live h (TrackedObject info))
    /\ (forall DeltaTime t,
          TrackedObjects t = tr -> tr <> [] ->
          float_le (SampleInterval t) float_zero = false ->
          float_ge (float_add (TimeAccumulator t) DeltaTime) (SampleInterval t)
          = true ->
          exists t',
            TickComponent sizeof_UObject h DeltaTime t = Done t'
            /\ TrackedObjects t' = tr'
            /\ GetTrackedMemoryInfo t' = cache).
Proof.
  intros Hc.
  destruct (sampling_pass_spec sizeof_UObject h Hc tr)
    as (tr' & cache & Hrun & Hperm & Hrecs).
  exists tr', cache. split; [done|]. split; [done|]. split; [done|].
  assert (forall info, info ∈ cache ->
            live h (TrackedObject info) /\ TrackedObject info ∈ tr) as Hlive.
  { intros info [i Hi]%list_elem_of_lookup.
    destruct (Forall2_lookup_r _ _ _ _ _ Hrecs Hi) as (w & Hw & Hrec).
    destruct Hrec as (o & V & _ & -> & _).
    assert (w ∈ reverse (filter (live h) tr)) as Hin
      by (apply list_elem_of_lookup; eauto).
    rewrite elem_of_reverse in Hin. by apply list_elem_of_filter in Hin. }
  split; [|split; [|split]].
  - intros w Hw Hdead. split.
    + rewrite Hperm. intros [? _]%list_elem_of_filter. done.
    + intros info Hinfo <-. by destruct (Hlive info Hinfo).
  - intros w Hw Hl.
    assert (w ∈ filter (live h) tr) as Hin by (by apply list_elem_of_filter).
    split; [by rewrite Hperm|].
    apply elem_of_reverse, list_elem_of_lookup in Hin as [i Hi].
    destruct (Forall2_lookup_l _ _ _ _ _ Hrecs Hi) as (info & Hinfo & Hrec).
    exists info. split; [|done]. apply list_elem_of_lookup. eauto.
  - intros info Hinfo. by destruct (Hlive info Hinfo).
  - intros DeltaTime t <- Hne Hint Hge.
    destruct (TickComponent_cases sizeof_UObject h Hc DeltaTime t)
      as [_ Hcases].
    destruct (Hcases Hint Hne) as [_ Hpass].
    destruct (Hpass Hge) as (tr2 & cache2 & Hrun2 & _ & _ & ->).
    rewrite Hrun in Hrun2. injection Hrun2 as <- <-.
    eexists. split; [done|]. done.
Qed.

(** [B] was destroyed: its handle and its record are gone, [A] and [C]
    keep theirs. *)
Example sampling_pass_after_destroy :
  sampling_pass 40 (delete 2%positive (<[1%positive := mkUObject "A" false []]> heap_ABC))
    [Some 1; Some 2; Some 3]%positive
  = Done ([Some 1; Some 3]%positive,
          [mkInfo "C" (Some 3%positive) 72 1; mkInfo "A" (Some 1%positive) 40 1]).
Proof. vm_compute. reflexivity. Qed.

Lemma sampling_pass_drops_destroyed_witness :
  heap_closed heap_ABC
  /\ exists tr' cache,
       sampling_pass 40 heap_ABC [Some 1; Some 4; Some 3]%positive
       = Done (tr', cache)
       /\ tr' ≡ₚ filter (live heap_ABC) [Some 1; Some 4; Some 3]%positive
       /\ (forall info, info ∈ cache -> live heap_ABC (TrackedObject info)).
Proof.
  assert (heap_closed heap_ABC) as Hc
    by (apply (bool_decide_unpack _); vm_compute; exact I).
  split; [exact Hc|].
  destruct (sampling_pass_drops_destroyed 40 heap_ABC
              [Some 1; Some 4; Some 3]%positive Hc)
    as (tr' & cache & Hrun & Hperm & _ & _ & _ & Hlive & _).
  exists tr', cache. split; [exact Hrun|]. split; [exact Hperm|exact Hlive].
Defined.

(** ** The accumulator *)

(** C5, as the code has it. While ticking is enabled the scheduler's
    advance is [TickComponent]. With no tracked handle, or with an
    interval that is not positive, a tick changes nothing: the accumulator
    does not advance. With at least one tracked handle and a positive
    interval a tick adds [DeltaTime] to the accumulator; below the
    interval that is all it does; at the interval or above it, the
    accumulator is reset to zero and one sampling pass runs, whose
    tracked set and cache, one record for each live handle, the tick
    installs. *)
Theorem TickComponent_accumulates (sizeof_UObject : Z) (h : Heap)
    (DeltaTime : float) (t : UMemoryUsageTracker) :
  heap_closed h ->
  let acc := float_add (TimeAccumulator t) DeltaTime in
  (bComponentTickEnabled t = true ->
   Advance sizeof_UObject h DeltaTime t
   = TickComponent sizeof_UObject h DeltaTime t)
  /\ ((float_le (SampleInterval t) float_zero = true \/ TrackedObjects t = []) ->
      TickComponent sizeof_UObject h DeltaTime t = Done t)
  /\ (float_le (SampleInterval t) float_zero = false ->
      TrackedObjects t <> [] ->
      (float_ge acc (SampleInterval t) = false ->
       TickComponent sizeof_UObject h DeltaTime t
       = Done {| TimeAccumulator := acc;
                 SampleInterval := SampleInterval t;
                 TrackedObjects := TrackedObjects t;
                 CachedMemoryInfo := CachedMemoryInfo t;
                 bComponentTickEnabled := bComponentTickEnabled t |})
      /\ (float_ge acc (SampleInterval t) = true ->
          exists tr' cache,
            sampling_pass sizeof_UObject h (TrackedObjects t) = Done (tr', cache)
            /\ length cache = length (filter (live h) (TrackedObjects t))
            /\ TickComponent sizeof_UObject h DeltaTime t
               = Done {| TimeAccumulator := float_zero;
                         SampleInterval := SampleInterval t;
                         TrackedObjects := tr';
                         CachedMemoryInfo := cache;
                         bComponentTickEnabled := bComponentTickEnabled t |})).
Proof.
  intros Hc acc.
  destruct (TickComponent_cases sizeof_UObject h Hc DeltaTime t)
    as [Hidle Hrun].
  split; [by unfold Advance; intros ->|]. split; [exact Hidle|].
  intros Hint Hne. destruct (Hrun Hint Hne) as [Hwait Hpass].
  split; [exact Hwait|]. intros Hge.
  destruct (Hpass Hge) as (tr' & cache & Hp & _ & Hrecs & Htick).
  exists tr', cache. split; [done|]. split; [|done].
  apply Forall2_length in Hrecs. by rewrite <- Hrecs, length_reverse.
Qed.

(** One tracked object, interval 5: a tick of 1 accumulates, a tick of 5
    samples and resets. *)
Example TickComponent_one_object :
  let t := set_tracked [Some 1%positive] NewTracker in
  TickComponent 40 heap_ABC float_1 t
  = Done {| TimeAccumulator := float_1;
            SampleInterval := float_5;
            TrackedObjects := [Some 1%positive];
            CachedMemoryInfo := [];
            bComponentTickEnabled := true |}
  /\ TickComponent 40 heap_ABC float_5 t
     = Done {| TimeAccumulator := float_zero;
               SampleInterval := float_5;
               TrackedObjects := [Some 1%positive];
               CachedMemoryInfo := [mkInfo "A" (Some 1%positive) 60 3];
               bComponentTickEnabled := true |}.
Proof. split; vm_compute; reflexivity. Qed.

Lemma TickComponent_accumulates_witness :
  heap_closed heap_ABC
  /\ float_le (SampleInterval (set_tracked [Some 1%positive] NewTracker))
       float_zero = false
  /\ TrackedObjects (set_tracked [Some 1%positive] NewTracker) <> []
  /\ float_ge
       (float_add (TimeAccumulator (set_tracked [Some 1%positive] NewTracker))
          float_1)
       (SampleInterval (set_tracked [Some 1%positive] NewTracker)) = false
  /\ TickComponent 40 heap_ABC float_1 (set_tracked [Some 1%positive] NewTracker)
     = Done {| TimeAccumulator := float_add float_zero float_1;
               SampleInterval := float_5;
               TrackedObjects := [Some 1%positive];
               CachedMemoryInfo := [];
               bComponentTickEnabled := true |}.
Proof.
  assert (heap_closed heap_ABC) as Hc
    by (apply (bool_decide_unpack _); vm_compute; exact I).
  assert (float_le (SampleInterval (set_tracked [Some 1%positive] NewTracker))
            float_zero = false) as Hint by reflexivity.
  assert (TrackedObjects (set_tracked [Some 1%positive] NewTracker) <> [])
    as Hne by discriminate.
  assert (float_ge
            (float_add
               (TimeAccumulator (set_tracked [Some 1%positive] NewTracker))
               float_1)
            (SampleInterval (set_tracked [Some 1%positive] NewTracker)) = false)
    as Hlt by (vm_compute; reflexivity).
  split; [exact Hc|]. split; [exact Hint|]. split; [exact Hne|].
  split; [exact Hlt|].
  exact (proj1 (proj2 (proj2 (TickComponent_accumulates 40 heap_ABC float_1
                                (set_tracked [Some 1%positive] NewTracker) Hc))
                  Hint Hne) Hlt).
Defined.

(** C5 as the specification states it fails with no tracked object: in
    the sampling state, with interval 5, a tick of 1 leaves the
    accumulator at 0, where the statement has it at 1. *)
Lemma TickComponent_idle_without_objects :
  let t := StartTracking float_5 NewTracker in
  bComponentTickEnabled t = true
  /\ SampleInterval t = float_5
  /\ Advance 40 heap_ABC float_1 t = Done t
  /\ stated_accumulator float_1 t = float_1
  /\ TimeAccumulator t <> stated_accumulator float_1 t.
Proof.
  simpl. split; [done|]. split; [by vm_compute|]. split; [by vm_compute|].
  split; [by vm_compute|]. vm_compute. discriminate.
Qed.

(** ** Searching the event log *)

Section Search.

Import FStr.

Lemma TChar_ToLower_idem c : TChar_ToLower (TChar_ToLower c) = TChar_ToLower c.
Proof. destruct c as [[] [] [] [] [] [] [] []]; reflexivity. Qed.

Lemma matches_at_start_lower sub s :
  matches_at_start (ToLower sub) (ToLower s) = matches_at_start sub s.
Proof.
  revert s. induction sub as [|a sub IH]; intros [|b s]; simpl; try done.
  by rewrite !TChar_ToLower_idem, IH.
Qed.

Lemma Contains_lower s sub :
  Contains (ToLower s) (ToLower sub) = Contains s sub.
Proof.
  induction s as [|c s IH].
  - simpl. change EmptyString with (ToLower EmptyString) at 1.
    by rewrite matches_at_start_lower.
  - change (ToLower (String c s)) with (String (TChar_ToLower c) (ToLower s)).
    cbn [Contains]. rewrite IH. f_equal.
    change (String (TChar_ToLower c) (ToLower s)) with (ToLower (String c s)).
    apply matches_at_start_lower.
Qed.

Lemma matches_at_start_spec sub s :
  matches_at_start sub s = true
  <-> exists mid post, s = mid +:+ post /\ ToLower mid = ToLower sub.
Proof.
  revert s. induction sub as [|a sub IH]; intros s.
  - split; [|by destruct s]. intros _. by exists EmptyString, s.
  - destruct s as [|b s]; simpl.
    + split; [done|]. intros ([|c mid] & post & Hs & Hmid); done.
    + rewrite andb_true_iff, bool_decide_eq_true, IH. split.
      * intros (Hab & mid & post & -> & Hmid).
        exists (String b mid), post. simpl. by rewrite Hmid, Hab.
      * intros ([|c mid] & post & Hs & Hmid); [done|].
        simpl in Hs, Hmid. injection Hs as -> ->. injection Hmid as Hc Hmid.
        split; [done|]. by exists mid, post.
Qed.

Lemma Contains_spec s sub : Contains s sub = true <-> ci_substring sub s.
Proof.
  unfold ci_substring. induction s as [|c s IH]; cbn [Contains].
  - rewrite orb_false_r, matches_at_start_spec. split.
    + intros (mid & post & Hs & Hmid). by exists EmptyString, mid, post.
    + intros ([|] & mid & post & Hs & Hmid); [|done]. by exists mid, post.
  - rewrite orb_true_iff, matches_at_start_spec, IH. split.
    + intros [(mid & post & Hs & Hmid)|(pre & mid & post & -> & Hmid)].
      * by exists EmptyString, mid, post.
      * by exists (String c pre), mid, post.
    + intros ([|c' pre] & mid & post & Hs & Hmid).
      * left. by exists mid, post.
      * right. simpl in Hs. injection Hs as -> ->. by exists pre, mid, post.
Qed.

Lemma Contains_empty s : Contains s EmptyString = true.
Proof. by destruct s. Qed.

(** What the loops of the two searches have in common. *)
Lemma search_loop_filter (field : FGameplayEventEntry -> string)
    (loop : string -> list FGameplayEventEntry -> list FGameplayEventEntry
            -> list FGameplayEventEntry) :
  (forall t Results, loop t [] Results = Results) ->
  (forall t Entry rest Results,
     loop t (Entry :: rest) Results
     = if Contains (ToLower (field Entry)) t
       then loop t rest (Results ++ [Entry]) else loop t rest Results) ->
  forall term (dec : forall Entry, Decision (ci_substring term (field Entry)))
         log Results,
    loop (ToLower term) log Results
    = Results ++ filter (fun Entry => ci_substring term (field Entry)) log.
Proof.
  intros Hnil Hcons term dec log.
  induction log as [|Entry log IH]; intros Results.
  - by rewrite Hnil, filter_nil, app_nil_r.
  - rewrite Hcons, Contains_lower.
    destruct (Contains (field Entry) term) eqn:Hc.
    + apply Contains_spec in Hc.
      rewrite filter_cons_True, IH, <- app_assoc by done. done.
    + assert (~ ci_substring term (field Entry)) as Hn
        by (rewrite <- Contains_spec; congruence).
      rewrite filter_cons_False, IH by done. done.
Qed.

(** With the empty term the loop keeps every entry. *)
Lemma search_loop_empty (field : FGameplayEventEntry -> string)
    (loop : string -> list FGameplayEventEntry -> list FGameplayEventEntry
            -> list FGameplayEventEntry) :
  (forall t Results, loop t [] Results = Results) ->
  (forall t Entry rest Results,
     loop t (Entry :: rest) Results
     = if Contains (ToLower (field Entry)) t
       then loop t rest (Results ++ [Entry]) else loop t rest Results) ->
  forall log Results, loop (ToLower EmptyString) log Results = Results ++ log.
Proof.
  intros Hnil Hcons log. induction log as [|Entry log IH]; intros Results.
  - by rewrite Hnil, app_nil_r.
  - rewrite Hcons. simpl. rewrite Contains_empty.
    change EmptyString with (ToLower EmptyString).
    by rewrite IH, <- app_assoc.
Qed.

End Search.

(** C3. [SearchEventsByName] returns the entries of the log whose name
    contains the term as a substring up to the case of letters, and
    [SearchEventsByContext] those whose context does, each entry once and
    in the order of the log. With the empty term both return the whole
    log. After logging [Spawn], [Spawn] and [Death], a search by name for
    [spa], whatever the case of its letters, returns the two [Spawn]
    entries in the order they were logged. *)
Theorem search_is_case_insensitive_filter
    (l : UGameplayEventLogger) (term : string)
    (dec_name : forall Entry, Decision (ci_substring term (EventName Entry)))
    (dec_context : forall Entry, Decision (ci_substring term (Context Entry))) :
  SearchEventsByName l term
  = filter (fun Entry => ci_substring term (EventName Entry)) (EventLog l)
  /\ SearchEventsByContext l term
     = filter (fun Entry => ci_substring term (Context Entry)) (EventLog l)
  /\ SearchEventsByName l EmptyString = EventLog l
  /\ SearchEventsByContext l EmptyString = EventLog l
  /\ (forall Printf_3f DateTime_ToString env1 env2 env3 c1 c2 c3,
        FStr.ToLower term = "spa"%string ->
        let log3 :=
          (LogEvent Printf_3f DateTime_ToString env3 "Death" c3
             (LogEvent Printf_3f DateTime_ToString env2 "Spawn" c2
                (LogEvent Printf_3f DateTime_ToString env1 "Spawn" c1
                   NewLogger).1).1).1 in
        length (EventLog log3) = 3%nat
        /\ SearchEventsByName log3 term = take 2 (EventLog log3)
        /\ EventName <$> SearchEventsByName log3 term
           = ["Spawn"; "Spawn"]%string).
Proof.
  split.
  { exact (search_loop_filter EventName search_by_name
             (fun _ _ => eq_refl) (fun _ _ _ _ => eq_refl)
             term dec_name (EventLog l) []). }
  split.
  { exact (search_loop_filter Context search_by_context
             (fun _ _ => eq_refl) (fun _ _ _ _ => eq_refl)
             term dec_context (EventLog l) []). }
  split.
  { exact (search_loop_empty EventName search_by_name
             (fun _ _ => eq_refl) (fun _ _ _ _ => eq_refl) (EventLog l) []). }
  split.
  { exact (search_loop_empty Context search_by_context
             (fun _ _ => eq_refl) (fun _ _ _ _ => eq_refl) (EventLog l) []). }
  intros Printf_3f DateTime_ToString env1 env2 env3 c1 c2 c3 Hterm. simpl.
  unfold SearchEventsByName. rewrite Hterm. done.
Qed.

Lemma search_is_case_insensitive_filter_witness :
  FStr.ToLower "SpA" = "spa"%string
  /\ EventName <$>
       SearchEventsByName
         (LogEvent (fun _ => "0.000"%string) (fun _ => "now"%string)
            (mkEnv None 3 false) "Death" "fall"
            (LogEvent (fun _ => "0.000"%string) (fun _ => "now"%string)
               (mkEnv None 2 false) "Spawn" "second"
               (LogEvent (fun _ => "0.000"%string) (fun _ => "now"%string)
                  (mkEnv None 1 false) "Spawn" "first" NewLogger).1).1).1
         "SpA"
     = ["Spawn"; "Spawn"]%string.
Proof.
  assert (forall (field : FGameplayEventEntry -> string) Entry,
            Decision (ci_substring "SpA" (field Entry))) as dec.
  { intros field Entry.
    destruct (FStr.Contains (field Entry) "SpA") eqn:Hc.
    - left. by apply Contains_spec.
    - right. rewrite <- Contains_spec. congruence. }
  assert (FStr.ToLower "SpA" = "spa"%string) as Hterm by reflexivity.
  split; [exact Hterm|].
  exact (proj2 (proj2
           (proj2 (proj2 (proj2 (proj2
              (search_is_case_insensitive_filter NewLogger "SpA"
                 (dec EventName) (dec Context)))))
              (fun _ => "0.000"%string) (fun _ => "now"%string)
              (mkEnv None 1 false) (mkEnv None 2 false) (mkEnv None 3 false)
              "first"%string "second"%string "fall"%string Hterm))).
Defined.

(** An export of the empty log, with a file system whose writes all
    succeed. *)
Lemma ExportLogToCSV_result_witness :
  EventLog NewLogger = []
  /\ ExportLogToCSV (fun _ => "0.000"%string) (fun _ => "now"%string)
       (fun Content Path fs => (true, <[Path := Content]> fs))
       "log.csv" NewLogger ∅
     = (false, ∅, [Export_warning]).
Proof.
  assert (EventLog NewLogger = []) as Hempty by reflexivity.
  split; [exact Hempty|].
  exact (proj1 (ExportLogToCSV_result
                  (fun _ => "0.000"%string) (fun _ => "now"%string)
                  (fun Content Path fs => (true, <[Path := Content]> fs))
                  "log.csv" NewLogger ∅) Hempty).
Defined.

(** One logged event, exported: the header and one row reach the file. *)
Example ExportLogToCSV_one_event :
  ExportLogToCSV (fun _ => "0.000"%string) (fun _ => "now"%string)
    (fun Content Path fs => (true, <[Path := Content]> fs))
    "log.csv"
    (LogEvent (fun _ => "0.000"%string) (fun _ => "now"%string)
       (mkEnv None 1 false) "Spawn" "a,b" NewLogger).1 ∅
  = (true,
     {[ "log.csv"%string :=
          ("GameTime,EventName,Context,UTC_Timestamp" +:+ FStr.newline
           +:+ "0.000,Spawn," +:+ String FStr.quote_char "a,b"
           +:+ String FStr.quote_char ",now" +:+ FStr.newline)%string ]},
     []).
Proof. vm_compute. reflexivity. Qed.

(** * Further properties *)

(** ** Map comparison *)



(** ** Quoting of CSV fields *)

Section Quoting.

Import FStr.

Lemma ToLower_is_quote c : TChar_ToLower c = quote_char <-> c = quote_char.
Proof.
  destruct c as [[] [] [] [] [] [] [] []]; vm_compute; split; congruence.
Qed.

Lemma ToLower_is_comma c : TChar_ToLower c = comma_char <-> c = comma_char.
Proof.
  destruct c as [[] [] [] [] [] [] [] []]; vm_compute; split; congruence.
Qed.

Lemma Contains_quote s :
  Contains s (String quote_char EmptyString) = true <-> occurs quote_char s.
Proof.
  induction s as [|c s IH]; [done|].
  cbn [Contains matches_at_start occurs].
  rewrite orb_true_iff, andb_true_r, bool_decide_eq_true, IH.
  change (TChar_ToLower quote_char) with quote_char.
  split; (intros [Hc|Hs]; [left|by right]).
  - symmetry in Hc. by apply ToLower_is_quote.
  - symmetry. by apply ToLower_is_quote.
Qed.

Lemma Contains_comma s :
  Contains s (String comma_char EmptyString) = true <-> occurs comma_char s.
Proof.
  induction s as [|c s IH]; [done|].
  cbn [Contains matches_at_start occurs].
  rewrite orb_true_iff, andb_true_r, bool_decide_eq_true, IH.
  change (TChar_ToLower comma_char) with comma_char.
  split; (intros [Hc|Hs]; [left|by right]).
  - symmetry in Hc. by apply ToLower_is_comma.
  - symmetry. by apply ToLower_is_comma.
Qed.

Lemma double_quotes_inj a b : double_quotes a = double_quotes b -> a = b.
Proof.
  revert b. induction a as [|c a IH]; intros [|d b]; simpl.
  - done.
  - by destruct (bool_decide (d = quote_char)).
  - by destruct (bool_decide (c = quote_char)).
  - destruct (bool_decide (c = quote_char)) eqn:Hc,
             (bool_decide (d = quote_char)) eqn:Hd.
    + apply bool_decide_eq_true in Hc as ->.
      apply bool_decide_eq_true in Hd as ->.
      intros [= Heq]. by rewrite (IH b Heq).
    + apply bool_decide_eq_false in Hd. intros [= <- _]. done.
    + apply bool_decide_eq_false in Hc. intros [= -> _]. done.
    + intros [= -> Heq]. by rewrite (IH b Heq).
Qed.

Lemma append_quote_inj a b :
  a +:+ String quote_char EmptyString = b +:+ String quote_char EmptyString ->
  a = b.
Proof.
  revert b. induction a as [|c a IH]; intros [|d b]; simpl.
  - done.
  - intros [= _ Heq]. by destruct b.
  - intros [= _ Heq]. by destruct a.
  - intros [= -> Heq]. by rewrite (IH b Heq).
Qed.



(** The two outcomes of [SanitizeForCSV]. *)
Lemma SanitizeForCSV_cases Input :
  (~ occurs quote_char Input /\ ~ occurs comma_char Input
   /\ SanitizeForCSV Input = Input)
  \/ ((occurs quote_char Input \/ occurs comma_char Input)
      /\ SanitizeForCSV Input
         = String quote_char
             (double_quotes Input +:+ String quote_char EmptyString)).
Proof.
  unfold SanitizeForCSV.
  destruct (Contains Input (String quote_char EmptyString)) eqn:Hq.
  { right. split; [|done]. left. by apply Contains_quote. }
  destruct (Contains Input (String comma_char EmptyString)) eqn:Hc.
  { right. split; [|done]. right. by apply Contains_comma. }
  left. simpl. split; [|split; [|done]].
  - rewrite <- Contains_quote. congruence.
  - rewrite <- Contains_comma. congruence.
Qed.

End Quoting.

(** X1. [SanitizeForCSV] loses nothing: two inputs with the same sanitized
    field are the same input. *)
Theorem SanitizeForCSV_injective (a b : string) :
  SanitizeForCSV a = SanitizeForCSV b -> a = b.
Proof.
  destruct (SanitizeForCSV_cases a) as [(Hqa & _ & ->)|[_ ->]],
           (SanitizeForCSV_cases b) as [(Hqb & _ & ->)|[_ ->]].
  - done.
  - intros ->. simpl in Hqa. exfalso. apply Hqa. by left.
  - intros <-. simpl in Hqb. exfalso. apply Hqb. by left.
  - intros [= Heq]. by apply double_quotes_inj, append_quote_inj.
Qed.

Lemma SanitizeForCSV_injective_witness :
  SanitizeForCSV "a,b" = SanitizeForCSV "a,b" /\ "a,b"%string = "a,b"%string.
Proof.
  assert (SanitizeForCSV "a,b" = SanitizeForCSV "a,b") as Heq by reflexivity.
  split; [exact Heq|].
  exact (SanitizeForCSV_injective "a,b" "a,b" Heq).
Defined.



(** ** Sequences of logged events *)

Section Logging.

Variable Printf_3f : float -> string.
Variable DateTime_ToString : FDateTime -> string.

Lemma IsEmpty_true s : FStr.IsEmpty s = true <-> s = EmptyString.
Proof. by destruct s. Qed.

(** What one call does to the log. *)
Lemma LogEvent_log env Name Ctx l :
  EventLog (LogEvent Printf_3f DateTime_ToString env Name Ctx l).1
  = EventLog l
    ++ (if decide (Name <> EmptyString)
        then [entry_of (env, Name, Ctx)] else []).
Proof.
  unfold LogEvent, entry_of. destruct Name as [|c Name]; simpl.
  - by rewrite app_nil_r.
  - by destruct (WorldTimeSeconds env).
Qed.

Lemma string_append_cons x a b : String x a +:+ b = String x (a +:+ b).
Proof. done. Qed.

Lemma string_append_nil_r a : a +:+ EmptyString = a.
Proof.
  induction a as [|x a IH]; [done|]. by rewrite string_append_cons, IH.
Qed.

Lemma string_append_assoc a b c : (a +:+ b) +:+ c = a +:+ b +:+ c.
Proof.
  induction a as [|x a IH]; [done|]. by rewrite !string_append_cons, IH.
Qed.

Lemma csv_content_app log1 log2 :
  csv_content Printf_3f DateTime_ToString (log1 ++ log2)
  = csv_content Printf_3f DateTime_ToString log1
    +:+ foldr (fun Entry rows =>
                 csv_row Printf_3f DateTime_ToString Entry +:+ rows)
          EmptyString log2.
Proof.
  unfold csv_content. rewrite fold_left_app.
  generalize (fold_left
                (fun CSVContent Entry =>
                   CSVContent +:+ csv_row Printf_3f DateTime_ToString Entry)
                log1 (csv_header)).
  induction log2 as [|e log2 IH]; intros acc; simpl.
  - by rewrite string_append_nil_r.
  - by rewrite IH, string_append_assoc.
Qed.

End Logging.

(** The log after a sequence of calls. *)
Lemma LogEvents_log
    (Printf_3f : float -> string) (DateTime_ToString : FDateTime -> string)
    (calls : list LogCall) (l : UGameplayEventLogger) :
  EventLog (LogEvents Printf_3f DateTime_ToString calls l)
  = EventLog l
    ++ (entry_of <$> filter (fun call : LogCall => call.1.2 <> EmptyString) calls).
Proof.
  revert l. induction calls as [|[[env Name] Ctx] calls IH]; intros l.
  - simpl. by rewrite app_nil_r.
  - unfold LogEvents in *. cbn [foldl]. rewrite IH. cbn [fst snd].
    rewrite LogEvent_log, <- app_assoc. f_equal.
    destruct (decide (Name <> EmptyString)) as [Hne|Heq].
    + by rewrite filter_cons_True by done.
    + by rewrite filter_cons_False by done.
Qed.

(** X3. A sequence of [LogEvent] calls appends to the log, in the order
    of the calls, one entry for each call whose name is not empty, with
    the name and context of the call, the time of the world (zero without
    a world) and the wall clock of the call; the entries already there
    stay, and [GetEventCount] grows by the number of calls with a
    non-empty name. *)
Theorem LogEvents_appends_named_calls
    (Printf_3f : float -> string) (DateTime_ToString : FDateTime -> string)
    (calls : list LogCall) (l : UGameplayEventLogger) :
  EventLog (LogEvents Printf_3f DateTime_ToString calls l)
  = EventLog l
    ++ (entry_of <$> filter (fun call : LogCall => call.1.2 <> EmptyString) calls)
  /\ GetEventCount (LogEvents Printf_3f DateTime_ToString calls l)
     = GetEventCount l
       + Z.of_nat
           (length (filter (fun call : LogCall => call.1.2 <> EmptyString)
                      calls)).
Proof.
  pose proof (LogEvents_log Printf_3f DateTime_ToString calls l) as Hlog.
  split; [exact Hlog|].
  unfold GetEventCount. rewrite Hlog, length_app, length_fmap. lia.
Qed.

(** X4. After a [LogEvent] with a non-empty name the export is attempted
    whatever the log was, and what it writes is the content an export
    would have written before the call followed by the row of the new
    entry: exports only grow at the end. *)
Theorem ExportLogToCSV_after_LogEvent
    (Printf_3f : float -> string) (DateTime_ToString : FDateTime -> string)
    (SaveStringToFile : string -> string -> FileSystem -> bool * FileSystem)
    (env : Environment) (Name Ctx FilePath : string)
    (l : UGameplayEventLogger) (fs : FileSystem) :
  Name <> EmptyString ->
  let l' := (LogEvent Printf_3f DateTime_ToString env Name Ctx l).1 in
  let written :=
    SaveStringToFile
      (csv_content Printf_3f DateTime_ToString (EventLog l)
       +:+ csv_row Printf_3f DateTime_ToString (entry_of (env, Name, Ctx)))
      FilePath fs in
  csv_content Printf_3f DateTime_ToString (EventLog l')
  = csv_content Printf_3f DateTime_ToString (EventLog l)
    +:+ csv_row Printf_3f DateTime_ToString (entry_of (env, Name, Ctx))
  /\ (ExportLogToCSV Printf_3f DateTime_ToString SaveStringToFile
        FilePath l' fs).1
     = written.
Proof.
  intros Hname l' written.
  assert (EventLog l' = EventLog l ++ [entry_of (env, Name, Ctx)]) as Hlog.
  { unfold l'. rewrite LogEvent_log. by rewrite decide_True. }
  assert (csv_content Printf_3f DateTime_ToString (EventLog l')
          = csv_content Printf_3f DateTime_ToString (EventLog l)
            +:+ csv_row Printf_3f DateTime_ToString (entry_of (env, Name, Ctx)))
    as Hcontent.
  { rewrite Hlog, csv_content_app. simpl.
    by rewrite string_append_nil_r. }
  split; [exact Hcontent|].
  unfold ExportLogToCSV. rewrite Hcontent, Hlog.
  rewrite bool_decide_eq_false_2
    by (rewrite length_app; simpl; lia).
  fold written. by destruct written.
Qed.

Lemma ExportLogToCSV_after_LogEvent_witness :
  "Spawn"%string <> EmptyString
  /\ (ExportLogToCSV (fun _ => "0.000"%string) (fun _ => "now"%string)
        (fun Content Path fs => (true, <[Path := Content]> fs)) "log.csv"
        (LogEvent (fun _ => "0.000"%string) (fun _ => "now"%string)
           (mkEnv None 1 false) "Spawn" "a" NewLogger).1 ∅).1
     = (true,
        {[ "log.csv"%string :=
             csv_content (fun _ => "0.000"%string) (fun _ => "now"%string) []
             +:+ csv_row (fun _ => "0.000"%string) (fun _ => "now"%string)
                   (entry_of (mkEnv None 1 false, "Spawn"%string, "a"%string)) ]}).
Proof.
  assert ("Spawn"%string <> EmptyString) as Hne by discriminate.
  split; [exact Hne|].
  exact (proj2 (ExportLogToCSV_after_LogEvent
                  (fun _ => "0.000"%string) (fun _ => "now"%string)
                  (fun Content Path fs => (true, <[Path := Content]> fs))
                  (mkEnv None 1 false) "Spawn" "a" "log.csv" NewLogger ∅ Hne)).
Defined.

(** ** Narrowing a search *)

Section Narrowing.

Import FStr.

Lemma ToLower_app a b : ToLower (a +:+ b) = ToLower a +:+ ToLower b.
Proof.
  induction a as [|x a IH]; [done|].
  rewrite string_append_cons. cbn [ToLower].
  by rewrite string_append_cons, IH.
Qed.

Lemma ToLower_split m x y :
  ToLower m = x +:+ y ->
  exists a b, m = a +:+ b /\ ToLower a = x /\ ToLower b = y.
Proof.
  revert m. induction x as [|c x IH]; intros m Hm.
  - by exists EmptyString, m.
  - destruct m as [|d m]; [done|].
    rewrite string_append_cons in Hm. cbn [ToLower] in Hm.
    injection Hm as Hd Hm. destruct (IH m Hm) as (a & b & -> & Ha & Hb).
    exists (String d a), b. cbn [ToLower]. by rewrite Hd, Ha.
Qed.

Lemma ci_substring_trans t1 t2 s :
  ci_substring t1 t2 -> ci_substring t2 s -> ci_substring t1 s.
Proof.
  intros (p1 & m1 & q1 & -> & Hm1) (p2 & m2 & q2 & -> & Hm2).
  rewrite !ToLower_app in Hm2.
  apply ToLower_split in Hm2 as (a & bc & -> & Ha & Hbc).
  apply ToLower_split in Hbc as (b & c & -> & Hb & Hc).
  exists (p2 +:+ a), b, (c +:+ q2). split; [|congruence].
  by rewrite !string_append_assoc.
Qed.

Lemma ci_substring_refl_case term s :
  ToLower term = ToLower s -> ci_substring term s.
Proof.
  intros Heq. exists EmptyString, s, EmptyString.
  by rewrite string_append_nil_r.
Qed.

Lemma ci_substring_dec term s : Decision (ci_substring term s).
Proof.
  destruct (Contains s term) eqn:Hc.
  - left. by apply Contains_spec.
  - right. rewrite <- Contains_spec. congruence.
Qed.

Lemma filter_narrow {A : Type} (P1 P2 : A -> Prop)
    `{!forall x, Decision (P1 x)} `{!forall x, Decision (P2 x)} (l : list A) :
  (forall x, P2 x -> P1 x) ->
  filter P2 (filter P1 l) = filter P2 l.
Proof.
  intros Himp. induction l as [|x l IH]; [done|].
  destruct (decide (P1 x)) as [H1|H1].
  - rewrite (filter_cons_True P1) by done.
    destruct (decide (P2 x)) as [H2|H2].
    + by rewrite !(filter_cons_True P2), IH by done.
    + by rewrite !(filter_cons_False P2), IH by done.
  - rewrite (filter_cons_False P1) by done.
    rewrite (filter_cons_False P2) by auto. exact IH.
Qed.

(** Both searches as filters, with the decision procedure [Contains]
    gives. *)
Lemma SearchEventsByName_filter l term :
  SearchEventsByName l term
  = @filter _ _ _ (fun Entry => ci_substring term (EventName Entry))
      (fun Entry => ci_substring_dec term (EventName Entry)) (EventLog l).
Proof.
  exact (search_loop_filter EventName search_by_name
           (fun _ _ => eq_refl) (fun _ _ _ _ => eq_refl)
           term _ (EventLog l) []).
Qed.

Lemma SearchEventsByContext_filter l term :
  SearchEventsByContext l term
  = @filter _ _ _ (fun Entry => ci_substring term (Context Entry))
      (fun Entry => ci_substring_dec term (Context Entry)) (EventLog l).
Proof.
  exact (search_loop_filter Context search_by_context
           (fun _ _ => eq_refl) (fun _ _ _ _ => eq_refl)
           term _ (EventLog l) []).
Qed.

End Narrowing.

(** X5. A search can be narrowed on its own results: when the term [t1]
    occurs in the term [t2] up to case, searching the results of the
    search for [t1] with [t2] gives what searching the whole log with [t2]
    gives, and the results for [t2] are among the results for [t1], in the
    same order. This holds by name and by context. *)
Theorem search_narrows (l : UGameplayEventLogger) (t1 t2 : string) :
  ci_substring t1 t2 ->
  SearchEventsByName {| EventLog := SearchEventsByName l t1 |} t2
  = SearchEventsByName l t2
  /\ SearchEventsByName l t2 `sublist_of` SearchEventsByName l t1
  /\ SearchEventsByContext {| EventLog := SearchEventsByContext l t1 |} t2
     = SearchEventsByContext l t2
  /\ SearchEventsByContext l t2 `sublist_of` SearchEventsByContext l t1.
Proof.
  intros Hsub.
  assert (SearchEventsByName {| EventLog := SearchEventsByName l t1 |} t2
          = SearchEventsByName l t2) as Hname.
  { rewrite (SearchEventsByName_filter {| EventLog := _ |} t2). simpl.
    rewrite (SearchEventsByName_filter l t1), (SearchEventsByName_filter l t2).
    apply filter_narrow. intros e. by apply ci_substring_trans. }
  assert (SearchEventsByContext {| EventLog := SearchEventsByContext l t1 |} t2
          = SearchEventsByContext l t2) as Hctx.
  { rewrite (SearchEventsByContext_filter {| EventLog := _ |} t2). simpl.
    rewrite (SearchEventsByContext_filter l t1),
      (SearchEventsByContext_filter l t2).
    apply filter_narrow. intros e. by apply ci_substring_trans. }
  split; [exact Hname|]. split; [|split; [exact Hctx|]].
  - rewrite <- Hname, (SearchEventsByName_filter {| EventLog := _ |} t2).
    apply sublist_filter.
  - rewrite <- Hctx, (SearchEventsByContext_filter {| EventLog := _ |} t2).
    apply sublist_filter.
Qed.

Lemma search_narrows_witness :
  ci_substring "spa" "Spaw"
  /\ SearchEventsByName
       {| EventLog :=
            SearchEventsByName
              {| EventLog := [mkEntry "Spawn" "a" float_zero 1;
                              mkEntry "Space" "b" float_zero 2;
                              mkEntry "Death" "c" float_zero 3] |} "spa" |}
       "Spaw"
     = SearchEventsByName
         {| EventLog := [mkEntry "Spawn" "a" float_zero 1;
                         mkEntry "Space" "b" float_zero 2;
                         mkEntry "Death" "c" float_zero 3] |} "Spaw".
Proof.
  assert (ci_substring "spa" "Spaw") as Hsub.
  { exists EmptyString, "Spa"%string, "w"%string. split; reflexivity. }
  split; [exact Hsub|].
  exact (proj1 (search_narrows _ "spa" "Spaw" Hsub)).
Defined.

(** X6. A logged event is found by its name. After a [LogEvent] with a
    non-empty name, a search by name for a term that occurs in that name
    up to case, the name itself in any letter case included, returns what
    it returned before followed by the new entry; a search for any other
    term returns what it returned before. *)
Theorem LogEvent_then_SearchEventsByName
    (Printf_3f : float -> string) (DateTime_ToString : FDateTime -> string)
    (env : Environment) (Name Ctx term : string) (l : UGameplayEventLogger) :
  Name <> EmptyString ->
  let l' := (LogEvent Printf_3f DateTime_ToString env Name Ctx l).1 in
  (ci_substring term Name ->
   SearchEventsByName l' term
   = SearchEventsByName l term ++ [entry_of (env, Name, Ctx)])
  /\ (FStr.ToLower term = FStr.ToLower Name ->
      SearchEventsByName l' term
      = SearchEventsByName l term ++ [entry_of (env, Name, Ctx)])
  /\ (~ ci_substring term Name ->
      SearchEventsByName l' term = SearchEventsByName l term).
Proof.
  intros Hname l'.
  assert (EventLog l' = EventLog l ++ [entry_of (env, Name, Ctx)]) as Hlog.
  { unfold l'. rewrite LogEvent_log. by rewrite decide_True. }
  assert (ci_substring term Name ->
          SearchEventsByName l' term
          = SearchEventsByName l term ++ [entry_of (env, Name, Ctx)]) as Hin.
  { intros Hsub. rewrite !SearchEventsByName_filter, Hlog, filter_app.
    f_equal. etrans; [apply filter_cons_True; exact Hsub|done]. }
  split; [exact Hin|]. split.
  - intros Heq. by apply Hin, ci_substring_refl_case.
  - intros Hnot. rewrite !SearchEventsByName_filter, Hlog, filter_app.
    etrans; [|apply app_nil_r]. f_equal.
    etrans; [apply filter_cons_False; exact Hnot|done].
Qed.

Lemma LogEvent_then_SearchEventsByName_witness :
  "Spawn"%string <> EmptyString
  /\ FStr.ToLower "SPAWN" = FStr.ToLower "Spawn"
  /\ SearchEventsByName
       (LogEvent (fun _ => "0.000"%string) (fun _ => "now"%string)
          (mkEnv None 1 false) "Spawn" "a" NewLogger).1 "SPAWN"
     = SearchEventsByName NewLogger "SPAWN"
       ++ [entry_of (mkEnv None 1 false, "Spawn"%string, "a"%string)].
Proof.
  assert ("Spawn"%string <> EmptyString) as Hne by discriminate.
  assert (FStr.ToLower "SPAWN" = FStr.ToLower "Spawn") as Hcase by reflexivity.
  split; [exact Hne|]. split; [exact Hcase|].
  exact (proj1 (proj2 (LogEvent_then_SearchEventsByName
                         (fun _ => "0.000"%string) (fun _ => "now"%string)
                         (mkEnv None 1 false) "Spawn" "a" "SPAWN" NewLogger
                         Hne)) Hcase).
Defined.

(** X7. [ClearLog] forgets every entry, whatever was logged before: the
    count is zero, both searches return nothing for every term, an export
    is refused without a write, and the calls of [LogEvent] that follow
    leave exactly their own entries in the log. *)
Theorem ClearLog_forgets
    (Printf_3f : float -> string) (DateTime_ToString : FDateTime -> string)
    (SaveStringToFile : string -> string -> FileSystem -> bool * FileSystem)
    (l : UGameplayEventLogger) (term FilePath : string) (fs : FileSystem)
    (calls : list LogCall) :
  GetEventCount (ClearLog l) = 0
  /\ SearchEventsByName (ClearLog l) term = []
  /\ SearchEventsByContext (ClearLog l) term = []
  /\ ExportLogToCSV Printf_3f DateTime_ToString SaveStringToFile FilePath
       (ClearLog l) fs
     = (false, fs, [Export_warning])
  /\ EventLog (LogEvents Printf_3f DateTime_ToString calls (ClearLog l))
     = entry_of <$> filter (fun call : LogCall => call.1.2 <> EmptyString) calls.
Proof.
  do 4 (split; [done|]).
  by rewrite LogEvents_log.
Qed.

(** ** The sampling interval *)

Lemma float_above_floor_positive x :
  float_ge x float_0_01 = true -> float_le x float_zero = false.
Proof.
  unfold float_ge, float_le.
  destruct x as [s|s| |s m e]; try destruct s; try done; vm_compute; done.
Qed.

(** X8. [StartTracking] enables ticking and sets an interval that is at
    least 0.01 and positive, whatever interval it is given, negative,
    zero, infinite or not a number: the interval given when that is at
    least 0.01, and 0.01 otherwise. The interval guard of [TickComponent]
    therefore never holds after [StartTracking]. The tracked handles, the
    cache and the accumulator are left as they were. *)
Theorem StartTracking_clamps (SamplingInterval : float)
    (t : UMemoryUsageTracker) :
  let t' := StartTracking SamplingInterval t in
  float_ge (SampleInterval t') float_0_01 = true
  /\ float_le (SampleInterval t') float_zero = false
  /\ (float_ge SamplingInterval float_0_01 = true ->
      SampleInterval t' = SamplingInterval)
  /\ (float_ge SamplingInterval float_0_01 = false ->
      SampleInterval t' = float_0_01)
  /\ bComponentTickEnabled t' = true
  /\ TrackedObjects t' = TrackedObjects t
  /\ CachedMemoryInfo t' = CachedMemoryInfo t
  /\ TimeAccumulator t' = TimeAccumulator t.
Proof.
  simpl. unfold FMath_Max.
  assert (float_ge
            (if float_ge SamplingInterval float_0_01
             then SamplingInterval else float_0_01) float_0_01 = true) as Hge.
  { destruct (float_ge SamplingInterval float_0_01) eqn:H; [done|].
    by vm_compute. }
  split; [exact Hge|]. split; [by apply float_above_floor_positive|].
  split; [by intros ->|]. split; [by intros ->|]. done.
Qed.

Lemma StartTracking_clamps_witness :
  float_ge (S754_zero false) float_0_01 = false
  /\ SampleInterval (StartTracking (S754_zero false) NewTracker) = float_0_01.
Proof.
  assert (float_ge (S754_zero false) float_0_01 = false) as Hlow
    by reflexivity.
  split; [exact Hlow|].
  exact (proj1 (proj2 (proj2 (proj2
           (StartTracking_clamps (S754_zero false) NewTracker)))) Hlow).
Defined.

(** ** Registering and unregistering *)

Lemma set_tracked_set_tracked tr1 tr2 t :
  set_tracked tr2 (set_tracked tr1 t) = set_tracked tr2 t.
Proof. done. Qed.

Lemma RemoveAtSwap_last {A : Type} (l : list A) (x : A) :
  RemoveAtSwap (length l) (l ++ [x]) = l.
Proof.
  destruct (RemoveAtSwap_middle l x []) as (suf' & -> & Hperm).
  apply Permutation_nil_r in Hperm as ->. by rewrite app_nil_r.
Qed.

(** X9. Registering a live object that no handle resolves to and then
    unregistering it gives back the tracker as it was: the handle is
    appended at the end and removed from there, so the other handles keep
    their order. *)
Theorem Register_then_Unregister (h : Heap) (p : addr)
    (t : UMemoryUsageTracker) :
  live h (Some p) ->
  (forall w, w ∈ TrackedObjects t -> Get h w <> Some p) ->
  (UnregisterObject h (Some p) (RegisterObject h (Some p) t).1).1 = t.
Proof.
  intros Hl Hnone. unfold RegisterObject.
  destruct (already_tracked h (Some p) (TrackedObjects t)) eqn:Ha.
  { apply already_tracked_spec in Ha as (w & Hw & Hg). by destruct (Hnone w). }
  unfold UnregisterObject. cbn [fst TrackedObjects set_tracked].
  rewrite length_app, Nat.add_1_r. cbn [unregister_scan].
  rewrite list_lookup_middle by done.
  rewrite decide_True by (by apply Get_Some).
  rewrite RemoveAtSwap_last. by destruct t.
Qed.

Lemma Register_then_Unregister_witness :
  live heap_ABC (Some 3%positive)
  /\ (forall w,
        w ∈ TrackedObjects (set_tracked [Some 2; Some 1]%positive NewTracker) ->
        Get heap_ABC w <> Some 3%positive)
  /\ (UnregisterObject heap_ABC (Some 3%positive)
        (RegisterObject heap_ABC (Some 3%positive)
           (set_tracked [Some 2; Some 1]%positive NewTracker)).1).1
     = set_tracked [Some 2; Some 1]%positive NewTracker.
Proof.
  assert (live heap_ABC (Some 3%positive)) as Hl by reflexivity.
  assert (forall w,
            w ∈ TrackedObjects (set_tracked [Some 2; Some 1]%positive NewTracker)
            -> Get heap_ABC w <> Some 3%positive) as Hnone.
  { intros w Hw. simpl in Hw.
    apply elem_of_cons in Hw as [->|Hw]; [discriminate|].
    apply elem_of_cons in Hw as [->|Hw]; [discriminate|].
    by apply elem_of_nil in Hw. }
  split; [exact Hl|]. split; [exact Hnone|].
  exact (Register_then_Unregister heap_ABC 3%positive _ Hl Hnone).
Defined.

(** X10. After [RegisterObject] with a live object, the object is among
    the live referents of the tracked handles, and the other live
    referents are those from before. *)
Theorem RegisterObject_tracks (h : Heap) (p : addr) (t : UMemoryUsageTracker) :
  live h (Some p) ->
  let tr' := TrackedObjects (RegisterObject h (Some p) t).1 in
  p ∈ live_referents h tr'
  /\ (forall q, q <> p ->
        q ∈ live_referents h tr' <-> q ∈ live_referents h (TrackedObjects t)).
Proof.
  intros Hl. simpl. unfold RegisterObject.
  assert (Get h (Some p) = Some p) as Hg by (by apply Get_Some).
  destruct (already_tracked h (Some p) (TrackedObjects t)) eqn:Ha.
  - split; [|done]. apply already_tracked_spec in Ha as (w & Hw & Hgw).
    apply list_elem_of_omap. eauto.
  - cbn [fst TrackedObjects set_tracked]. unfold live_referents.
    rewrite omap_app. cbn [omap list_omap]. rewrite Hg. split.
    + apply elem_of_app. right. by left.
    + intros q Hq. rewrite elem_of_app, list_elem_of_singleton. naive_solver.
Qed.

Lemma RegisterObject_tracks_witness :
  live heap_ABC (Some 3%positive)
  /\ 3%positive
     ∈ live_referents heap_ABC
         (TrackedObjects (RegisterObject heap_ABC (Some 3%positive) NewTracker).1).
Proof.
  assert (live heap_ABC (Some 3%positive)) as Hl by reflexivity.
  split; [exact Hl|].
  exact (proj1 (RegisterObject_tracks heap_ABC 3%positive NewTracker Hl)).
Defined.

(** X11. When no two handles resolve to the same live object,
    [UnregisterObject] leaves no handle that resolves to the object, and
    the other live referents are those from before. *)
Theorem UnregisterObject_untracks (h : Heap) (p : addr)
    (t : UMemoryUsageTracker) :
  no_duplicates h t ->
  let tr' := TrackedObjects (UnregisterObject h (Some p) t).1 in
  (p ∉ live_referents h tr')
  /\ (forall q, q <> p ->
        q ∈ live_referents h tr' <-> q ∈ live_referents h (TrackedObjects t)).
Proof.
  unfold no_duplicates. intros Hnd. simpl.
  destruct (unregister_scan_spec h (Some p) (length (TrackedObjects t))
              (TrackedObjects t))
    as [[Hnone ->]|(Index & w & _ & Hw & Hg & _ & ->)]; [lia| |].
  - split; [|done]. intros (w & Hw & Hg)%list_elem_of_omap.
    apply list_elem_of_lookup in Hw as [j Hj].
    apply (Hnone j w); [by apply lookup_lt_Some in Hj|done|done].
  - destruct (RemoveAtSwap_lookup _ _ _ Hw) as (Hperm & _).
    unfold live_referents in *.
    assert (omap (Get h) (TrackedObjects t)
            ≡ₚ p :: omap (Get h) (RemoveAtSwap Index (TrackedObjects t)))
      as Hp.
    { rewrite Hperm at 1. cbn [omap list_omap]. by rewrite Hg. }
    rewrite Hp in Hnd. apply NoDup_cons in Hnd as [Hnotin _].
    split; [done|]. intros q Hq. rewrite Hp, elem_of_cons. naive_solver.
Qed.

Lemma UnregisterObject_untracks_witness :
  no_duplicates heap_ABC (set_tracked [Some 2; Some 1; Some 3]%positive NewTracker)
  /\ 1%positive
     ∉ live_referents heap_ABC
         (TrackedObjects
            (UnregisterObject heap_ABC (Some 1%positive)
               (set_tracked [Some 2; Some 1; Some 3]%positive NewTracker)).1).
Proof.
  assert (no_duplicates heap_ABC
            (set_tracked [Some 2; Some 1; Some 3]%positive NewTracker)) as Hnd.
  { unfold no_duplicates. apply (bool_decide_unpack _). vm_compute. exact I. }
  split; [exact Hnd|].
  exact (proj1 (UnregisterObject_untracks heap_ABC 1%positive _ Hnd)).
Defined.

(** ** Repeated sampling *)

Lemma sampling_loop_all_live sizeof_UObject (h : Heap) (pre : list TWeakObjectPtr) :
  heap_closed h -> Forall (live h) pre ->
  forall suf cache,
  exists new,
    sampling_loop sizeof_UObject h (length pre) (pre ++ suf, cache)
    = Done (pre ++ suf, cache ++ new)
    /\ Forall2 (record_of sizeof_UObject h) (reverse pre) new.
Proof.
  intros Hc. induction pre as [|w pre IH] using rev_ind; intros Hlive suf cache.
  - exists []. simpl. rewrite app_nil_r. split; [done|constructor].
  - apply Forall_app in Hlive as [Hpre [Hw _]%Forall_cons].
    rewrite length_app, Nat.add_1_r, <- app_assoc, sampling_loop_S.
    change ([w] ++ suf) with (w :: suf).
    destruct (sample_at_live sizeof_UObject h Hc pre w suf cache Hw)
      as (info & -> & Hrec).
    simpl. destruct (IH Hpre (w :: suf) (cache ++ [info])) as (new & -> & Hrecs).
    exists (info :: new). rewrite <- app_assoc. split; [done|].
    rewrite reverse_snoc. by constructor.
Qed.

(** X12. On a heap without dangling references, the handles a sampling
    pass leaves are all live and the cache has one record for each of
    them. A pass over handles that are all live leaves the handles exactly
    as they are, in their order, and records them from the last to the
    first; so a second pass on the same heap changes no handle. *)
Theorem sampling_pass_stable (sizeof_UObject : Z) (h : Heap) :
  heap_closed h ->
  (forall tr tr' cache,
     sampling_pass sizeof_UObject h tr = Done (tr', cache) ->
     Forall (live h) tr' /\ length cache = length tr')
  /\ (forall tr,
        Forall (live h) tr ->
        exists cache,
          sampling_pass sizeof_UObject h tr = Done (tr, cache)
          /\ Forall2 (record_of sizeof_UObject h) (reverse tr) cache)
  /\ (forall tr tr' cache,
        sampling_pass sizeof_UObject h tr = Done (tr', cache) ->
        exists cache',
          sampling_pass sizeof_UObject h tr' = Done (tr', cache')
          /\ length cache' = length cache).
Proof.
  intros Hc.
  assert (forall tr tr' cache,
            sampling_pass sizeof_UObject h tr = Done (tr', cache) ->
            Forall (live h) tr' /\ length cache = length tr') as Hafter.
  { intros tr tr' cache Hrun.
    destruct (sampling_pass_spec sizeof_UObject h Hc tr)
      as (tr2 & cache2 & Hrun2 & Hperm & Hrecs).
    rewrite Hrun in Hrun2. injection Hrun2 as <- <-. split.
    - rewrite Hperm. apply Forall_forall.
      by intros w [? _]%list_elem_of_filter.
    - apply Forall2_length in Hrecs.
      rewrite <- Hrecs, length_reverse. by rewrite Hperm. }
  assert (forall tr,
            Forall (live h) tr ->
            exists cache,
              sampling_pass sizeof_UObject h tr = Done (tr, cache)
              /\ Forall2 (record_of sizeof_UObject h) (reverse tr) cache)
    as Hlive.
  { intros tr Hall. unfold sampling_pass.
    destruct (sampling_loop_all_live sizeof_UObject h tr Hc Hall [] [])
      as (new & Hrun & Hrecs).
    rewrite app_nil_r in Hrun. rewrite Hrun. eauto. }
  split; [exact Hafter|]. split; [exact Hlive|].
  intros tr tr' cache Hrun. destruct (Hafter _ _ _ Hrun) as [Hall Hlen].
  destruct (Hlive tr' Hall) as (cache' & Hrun' & Hrecs).
  exists cache'. split; [done|].
  apply Forall2_length in Hrecs. rewrite length_reverse in Hrecs. lia.
Qed.

Lemma sampling_pass_stable_witness :
  heap_closed heap_ABC
  /\ Forall (live heap_ABC) [Some 1; Some 3]%positive
  /\ exists cache,
       sampling_pass 40 heap_ABC [Some 1; Some 3]%positive
       = Done ([Some 1; Some 3]%positive, cache)
       /\ Forall2 (record_of 40 heap_ABC)
            (reverse [Some 1; Some 3]%positive) cache.
Proof.
  assert (heap_closed heap_ABC) as Hc
    by (apply (bool_decide_unpack _); vm_compute; exact I).
  assert (Forall (live heap_ABC) [Some 1; Some 3]%positive) as Hall
    by (repeat constructor).
  split; [exact Hc|]. split; [exact Hall|].
  exact (proj1 (proj2 (sampling_pass_stable 40 heap_ABC Hc)) _ Hall).
Defined.

(** X13. On a heap without dangling references a tick returns, and it
    never adds a handle, never drops a handle whose referent is live, and
    never changes the interval or whether ticking is enabled: the handles
    afterwards are, with their multiplicity, among the handles before. *)
Theorem TickComponent_only_prunes (sizeof_UObject : Z) (h : Heap)
    (DeltaTime : float) (t : UMemoryUsageTracker) :
  heap_closed h ->
  exists t',
    TickComponent sizeof_UObject h DeltaTime t = Done t'
    /\ TrackedObjects t' ⊆+ TrackedObjects t
    /\ (forall w, w ∈ TrackedObjects t -> live h w -> w ∈ TrackedObjects t')
    /\ SampleInterval t' = SampleInterval t
    /\ bComponentTickEnabled t' = bComponentTickEnabled t.
Proof.
  intros Hc.
  destruct (TickComponent_cases sizeof_UObject h Hc DeltaTime t)
    as [Hidle Hrun].
  destruct (float_le (SampleInterval t) float_zero) eqn:Hint;
    [rewrite Hidle by auto; eexists; by repeat split|].
  destruct (decide (TrackedObjects t = [])) as [Hnil|Hne];
    [rewrite Hidle by auto; eexists; by repeat split|].
  destruct (Hrun eq_refl Hne) as [Hwait Hpass].
  destruct (float_ge (float_add (TimeAccumulator t) DeltaTime)
              (SampleInterval t)) eqn:Hge.
  - destruct (Hpass eq_refl) as (tr' & cache & _ & Hperm & _ & ->).
    eexists. split; [done|]. simpl. split; [|split; [|done]].
    + rewrite Hperm. apply sublist_submseteq, sublist_filter.
    + intros w Hw Hl. rewrite Hperm. by apply list_elem_of_filter.
  - rewrite (Hwait eq_refl). eexists. by repeat split.
Qed.

Lemma TickComponent_only_prunes_witness :
  heap_closed heap_ABC
  /\ exists t',
       TickComponent 40 heap_ABC float_5
         (set_tracked [Some 1; Some 4]%positive NewTracker) = Done t'
       /\ TrackedObjects t'
          ⊆+ TrackedObjects (set_tracked [Some 1; Some 4]%positive NewTracker).
Proof.
  assert (heap_closed heap_ABC) as Hc
    by (apply (bool_decide_unpack _); vm_compute; exact I).
  split; [exact Hc|].
  destruct (TickComponent_only_prunes 40 heap_ABC float_5
              (set_tracked [Some 1; Some 4]%positive NewTracker) Hc)
    as (t' & Hrun & Hsub & _).
  exists t'. split; [exact Hrun|exact Hsub].
Defined.

(** ** What the estimate and the count depend on *)

Lemma sum_bytes_Permutation (f : option FProperty -> Z) Props1 Props2 :
  Props1 ≡ₚ Props2 -> sum_bytes f Props1 = sum_bytes f Props2.
Proof.
  induction 1 as [|P l1 l2 _ IH|P Q l|l1 l2 l3 _ IH1 _ IH2]; simpl.
  - done.
  - by rewrite IH.
  - lia.
  - congruence.
Qed.

(** X14. The estimate of an object depends on nothing but the base
    overhead and the properties of the object, taken without their order:
    two objects whose property lists are permutations of each other, in
    the same heap or not, get the same estimate, whatever their names,
    their flags and the other objects. *)
Theorem CalculateMemoryUsage_order_independent (sizeof_UObject : Z)
    (h1 h2 : Heap) (p q : addr) (o1 o2 : UObject) :
  h1 !! p = Some o1 -> h2 !! q = Some o2 ->
  Properties o1 ≡ₚ Properties o2 ->
  CalculateMemoryUsage sizeof_UObject h1 (Some p)
  = CalculateMemoryUsage sizeof_UObject h2 (Some q).
Proof.
  intros H1 H2 Hperm.
  rewrite (CalculateMemoryUsage_wrapped _ _ _ _ H1),
    (CalculateMemoryUsage_wrapped _ _ _ _ H2).
  by rewrite (sum_bytes_Permutation _ _ _ Hperm).
Qed.

Lemma CalculateMemoryUsage_order_independent_witness :
  heap_ABC !! 1%positive = Some object_A
  /\ (<[1%positive := mkUObject "renamed" true (reverse (Properties object_A))]>
        heap_ABC) !! 1%positive
     = Some (mkUObject "renamed" true (reverse (Properties object_A)))
  /\ Properties object_A
     ≡ₚ Properties (mkUObject "renamed" true (reverse (Properties object_A)))
  /\ CalculateMemoryUsage 40 heap_ABC (Some 1%positive)
     = CalculateMemoryUsage 40
         (<[1%positive :=
              mkUObject "renamed" true (reverse (Properties object_A))]> heap_ABC)
         (Some 1%positive).
Proof.
  assert (heap_ABC !! 1%positive = Some object_A) as H1 by reflexivity.
  assert ((<[1%positive :=
               mkUObject "renamed" true (reverse (Properties object_A))]>
             heap_ABC) !! 1%positive
          = Some (mkUObject "renamed" true (reverse (Properties object_A))))
    as H2 by reflexivity.
  assert (Properties object_A
          ≡ₚ Properties
               (mkUObject "renamed" true (reverse (Properties object_A))))
    as Hperm by (simpl; by rewrite reverse_Permutation).
  split; [exact H1|]. split; [exact H2|]. split; [exact Hperm|].
  exact (CalculateMemoryUsage_order_independent 40 heap_ABC _ 1%positive
           1%positive object_A _ H1 H2 Hperm).
Defined.

Lemma reachable_same_edges (h1 h2 : Heap) :
  (forall a b, edge h1 a b <-> edge h2 a b) ->
  forall a b, reachable h1 a b -> reachable h2 a b.
Proof.
  intros Hedge a b Hr. unfold reachable in *.
  induction Hr as [|a b c Hab _ IH]; [done|].
  eapply rtc_l; [|exact IH]. by apply Hedge.
Qed.

(** X15. From a fresh visited set, the count and the visited set depend
    on the heap only through its reference graph: two heaps without
    dangling references that have the same references between objects
    give the same result from the same root, whatever the other
    properties, the order of the properties, the names and the flags of
    their objects. *)
Theorem CountReferencedObjects_graph_only (h1 h2 : Heap) (root : addr) :
  heap_closed h1 -> heap_closed h2 ->
  root ∈ dom h1 -> root ∈ dom h2 ->
  (forall a b, edge h1 a b <-> edge h2 a b) ->
  CountReferencedObjects h1 (Some root) ∅
  = CountReferencedObjects h2 (Some root) ∅.
Proof.
  intros Hc1 Hc2 Hr1 Hr2 Hedge.
  destruct (CountReferencedObjects_fresh h1 root Hc1 Hr1) as (V1 & -> & HV1 & _).
  destruct (CountReferencedObjects_fresh h2 root Hc2 Hr2) as (V2 & -> & HV2 & _).
  assert (V1 = V2) as ->; [|done].
  apply set_eq. intros x. rewrite HV1, HV2. split.
  - by apply reachable_same_edges.
  - apply reachable_same_edges. intros a b. by rewrite Hedge.
Qed.

(** X16. The visited set can be shared between calls. After a call from
    [r1] with a fresh visited set, a call from [r2] with the visited set
    the first call left counts only the objects the first call did not
    reach: the visited set ends with exactly the objects reachable from
    [r1] or from [r2], the two counts add up to its size (as an [int32];
    exactly below 2^31 heap objects), and when [r2] is reachable from [r1]
    the second call returns 0 and visits nothing. *)
Theorem CountReferencedObjects_shared_visited (h : Heap) (r1 r2 : addr) :
  heap_closed h -> r1 ∈ dom h -> r2 ∈ dom h ->
  exists n1 V1 n2 V2,
    CountReferencedObjects h (Some r1) ∅ = Done (n1, V1)
    /\ CountReferencedObjects h (Some r2) V1 = Done (n2, V2)
    /\ (forall x, x ∈ V2 <-> reachable h r1 x \/ reachable h r2 x)
    /\ wrap32 (n1 + n2) = wrap32 (Z.of_nat (size V2))
    /\ (Z.of_nat (size h) < 2 ^ 31 -> n1 + n2 = Z.of_nat (size V2))
    /\ (reachable h r1 r2 -> n2 = 0 /\ V2 = V1).
Proof.
  intros Hc Hr1 Hr2.
  destruct (CountReferencedObjects_fresh h r1 Hc Hr1)
    as (V1 & Hrun1 & HV1 & _ & Hsub1).
  assert (forall x y, x ∈ V1 -> edge h x y -> y ∈ V1) as Hclosed1.
  { intros x y Hx Hxy. apply HV1. apply HV1 in Hx.
    eapply rtc_r; [exact Hx|exact Hxy]. }
  assert (forall V : gset addr,
            (forall x y, x ∈ V -> edge h x y -> y ∈ V) ->
            forall a b, rtc (edge h) a b -> a ∈ V -> b ∈ V) as Hstay.
  { intros V HV a b Hab. induction Hab as [|a b c Hab _ IH]; [done|].
    intros Ha. apply IH. by apply (HV a). }
  assert (size V1 <= size h)%nat as Hsz1
    by (rewrite <- size_dom; by apply subseteq_size).
  exists (wrap32 (Z.of_nat (size V1))), V1.
  destruct (decide (r2 ∈ V1)) as [Hin|Hnin].
  - exists 0, V1. split; [done|]. split.
    { unfold CountReferencedObjects. simpl. by rewrite decide_True. }
    split.
    { intros x. rewrite HV1. split; [by left|]. intros [?|Hx]; [done|].
      apply HV1 in Hin. unfold reachable in *. by etrans. }
    split; [by rewrite wrap32_add_l, Z.add_0_r|].
    split; [|done]. intros Hsize. rewrite Z.add_0_r.
    apply wrap32_small. unfold in_int32. lia.
  - destruct (CountReferencedObjects_fuel_enough h (S (size h)) r2 V1
                Hc Hr2 Hnin) as (V2 & _ & Hrun2 & Hw).
    { pose proof (unvisited_le_size h V1). lia. }
    destruct Hw as (H12 & Hr2V2 & Hsub2 & Hreach2 & Hsucc2).
    exists (wrap32 (Z.of_nat (size V2) - Z.of_nat (size V1))), V2.
    split; [done|]. split; [done|].
    assert (forall x y, x ∈ V2 -> edge h x y -> y ∈ V2) as Hclosed2.
    { intros x y Hx Hxy. destruct (decide (x ∈ V1)) as [Hx1|Hx1].
      - apply H12. by apply (Hclosed1 x).
      - by apply (Hsucc2 x). }
    assert (size V1 <= size V2)%nat as Hle by (by apply subseteq_size).
    assert (size V2 <= size h)%nat as Hsz2.
    { rewrite <- size_dom. apply subseteq_size. set_solver. }
    split; [|split; [|split]].
    + intros x. split.
      * intros Hx. destruct (decide (x ∈ V1)) as [Hx1|Hx1].
        -- left. by apply HV1.
        -- right. by apply Hreach2.
      * intros [Hx|Hx]; [apply H12; by apply HV1|].
        by apply (Hstay V2 Hclosed2 r2 x).
    + rewrite wrap32_add_l, wrap32_add_r. f_equal. lia.
    + intros Hsize. rewrite !wrap32_small by (unfold in_int32; lia). lia.
    + intros Hreach. exfalso. apply Hnin. by apply HV1.
Qed.

Lemma CountReferencedObjects_shared_visited_witness :
  heap_closed heap_ABC /\ 2%positive ∈ dom heap_ABC /\ 1%positive ∈ dom heap_ABC
  /\ exists n1 V1 n2 V2,
       CountReferencedObjects heap_ABC (Some 2%positive) ∅ = Done (n1, V1)
       /\ CountReferencedObjects heap_ABC (Some 1%positive) V1 = Done (n2, V2)
       /\ (Z.of_nat (size heap_ABC) < 2 ^ 31 -> n1 + n2 = Z.of_nat (size V2)).
Proof.
  assert (heap_closed heap_ABC) as Hc
    by (apply (bool_decide_unpack _); vm_compute; exact I).
  assert (2%positive ∈ dom heap_ABC) as H2
    by (apply (bool_decide_unpack _); vm_compute; exact I).
  assert (1%positive ∈ dom heap_ABC) as H1
    by (apply (bool_decide_unpack _); vm_compute; exact I).
  split; [exact Hc|]. split; [exact H2|]. split; [exact H1|].
  destruct (CountReferencedObjects_shared_visited heap_ABC 2%positive
              1%positive Hc H2 H1)
    as (n1 & V1 & n2 & V2 & Hrun1 & Hrun2 & _ & _ & Hsum & _).
  exists n1, V1, n2, V2. split; [exact Hrun1|]. split; [exact Hrun2|exact Hsum].
Defined.

(** From [B] the walk counts [B] and [C]; from [A], sharing the visited
    set, it adds [A] alone. *)
Example CountReferencedObjects_shared_ABC :
  CountReferencedObjects heap_ABC (Some 2%positive) ∅
  = Done (2, {[2%positive; 3%positive]})
  /\ CountReferencedObjects heap_ABC (Some 1%positive) {[2%positive; 3%positive]}
     = Done (1, {[1%positive; 2%positive; 3%positive]}).
Proof. split; vm_compute; reflexivity. Qed.

Lemma CountReferencedObjects_graph_only_witness :
  heap_closed heap_ABC
  /\ heap_closed
       (<[1%positive := with_property 0 (Some (FOtherProperty 16)) object_A]>
          heap_ABC)
  /\ 1%positive ∈ dom heap_ABC
  /\ 1%positive
     ∈ dom (<[1%positive := with_property 0 (Some (FOtherProperty 16)) object_A]>
              heap_ABC)
  /\ (forall a b,
        edge heap_ABC a b
        <-> edge
              (<[1%positive :=
                   with_property 0 (Some (FOtherProperty 16)) object_A]>
                 heap_ABC) a b)
  /\ CountReferencedObjects heap_ABC (Some 1%positive) ∅
     = CountReferencedObjects
         (<[1%positive := with_property 0 (Some (FOtherProperty 16)) object_A]>
            heap_ABC) (Some 1%positive) ∅.
Proof.
  assert (heap_closed heap_ABC) as Hc
    by (apply (bool_decide_unpack _); vm_compute; exact I).
  assert (heap_closed
            (<[1%positive := with_property 0 (Some (FOtherProperty 16)) object_A]>
               heap_ABC)) as Hc'
    by (apply (bool_decide_unpack _); vm_compute; exact I).
  assert (1%positive ∈ dom heap_ABC) as H1
    by (apply (bool_decide_unpack _); vm_compute; exact I).
  assert (1%positive
          ∈ dom (<[1%positive :=
                     with_property 0 (Some (FOtherProperty 16)) object_A]>
                   heap_ABC)) as H1'
    by (apply (bool_decide_unpack _); vm_compute; exact I).
  assert (forall a b,
            edge heap_ABC a b
            <-> edge
                  (<[1%positive :=
                       with_property 0 (Some (FOtherProperty 16)) object_A]>
                     heap_ABC) a b) as He.
  { intros a b.
    rewrite (edge_with_property heap_ABC 1%positive object_A 0
               (Some (FOtherProperty 16)) eq_refl (Forall_nil_2 _)).
    split; [by left|]. intros [?|(_ & _ & Hin)]; [done|].
    by apply elem_of_nil in Hin. }
  split; [exact Hc|]. split; [exact Hc'|]. split; [exact H1|].
  split; [exact H1'|]. split; [exact He|].
  exact (CountReferencedObjects_graph_only heap_ABC _ 1%positive
           Hc Hc' H1 H1' He).
Defined.
